(** * mini-formkit: the [useForm] validation controller

    A shallow embedding of [packages/vue/src/useForm.ts]: the value domain
    [FormValue], the built-in predicates [required] and [email], the message
    formatter [getFieldErrorMessage], and the controller returned by
    [useForm] with its three state cells and four operations.

    The three cells are a record that every operation takes and returns.
    The argument of [useForm] is read after [unref], as plain values.  An
    object is the finite map of its own properties, so a field named like a
    property of [Object.prototype] is outside the model.  The rule set of a
    field is the list of its entries, since the pass depends on their
    order. *)

From Stdlib Require Import ZArith String Ascii List Bool.
From Stdlib Require Import Floats.SpecFloat.
From stdpp Require Import gmap strings list fin_maps pretty.

Local Open Scope string_scope.

(** ** The value domain *)

(** [FormValue = Date | string | number | boolean | string[] | null | undefined].
    A [Date] is its time value in milliseconds, [None] being the [NaN] time
    value of an invalid date.  A [number] is an IEEE 754 double.  A string is
    a sequence of code units, here restricted to the code units below 256. *)
Inductive FormValue : Type :=
| VDate (time : option Z)
| VString (s : string)
| VNumber (n : spec_float)
| VBoolean (b : bool)
| VArray (items : list string)
| VNull
| VUndefined.

(** The results of the [typeof] operator that values of the domain can have,
    and ['function'], which rule values can have. *)
Inductive JsType : Type :=
| TUndefined | TObject | TBoolean | TNumber | TString | TFunction.

Definition JsType_eqb (a b : JsType) : bool :=
  match a, b with
  | TUndefined, TUndefined | TObject, TObject | TBoolean, TBoolean
  | TNumber, TNumber | TString, TString | TFunction, TFunction => true
  | _, _ => false
  end.

Definition typeof (value : FormValue) : JsType :=
  match value with
  | VDate _ => TObject
  | VString _ => TString
  | VNumber _ => TNumber
  | VBoolean _ => TBoolean
  | VArray _ => TObject
  | VNull => TObject
  | VUndefined => TUndefined
  end.

Definition Array_isArray (value : FormValue) : bool :=
  match value with VArray _ => true | _ => false end.

Definition instanceof_Date (value : FormValue) : bool :=
  match value with VDate _ => true | _ => false end.

(** [value === undefined] and [value === null] *)
Definition is_undefined (value : FormValue) : bool :=
  match value with VUndefined => true | _ => false end.

Definition is_null (value : FormValue) : bool :=
  match value with VNull => true | _ => false end.

(** Truthiness of a string: [!!s]. *)
Definition ToBoolean_string (s : string) : bool :=
  negb (Nat.eqb (String.length s) 0).

(** Truthiness of a number: [NaN], [+0] and [-0] are falsy. *)
Definition ToBoolean_number (n : spec_float) : bool :=
  match n with
  | S754_zero _ | S754_nan => false
  | S754_infinity _ | S754_finite _ _ _ => true
  end.

(** Truthiness of a length or count: [!!n]. *)
Definition ToBoolean_nat (n : nat) : bool := negb (Nat.eqb n 0).

(** [!!value].  Objects (dates and arrays, also the invalid date and the
    empty array) are truthy. *)
Definition ToBoolean (value : FormValue) : bool :=
  match value with
  | VDate _ => true
  | VString s => ToBoolean_string s
  | VNumber n => ToBoolean_number n
  | VBoolean b => b
  | VArray _ => true
  | VNull => false
  | VUndefined => false
  end.

(** Truthiness of a [string | undefined]. *)
Definition ToBoolean_opt (s : option string) : bool :=
  match s with Some s => ToBoolean_string s | None => false end.

(** [Array.prototype.join] on a [string[]]. *)
Fixpoint Array_join (sep : string) (items : list string) : string :=
  match items with
  | [] => EmptyString
  | [x] => x
  | x :: rest => x ++ sep ++ Array_join sep rest
  end.

(** ** Regular expressions *)

(** The part of the pattern language that [emailRegex] uses: character
    classes, sequence, alternation and repetition.  A class is a list of
    ranges of code units. *)
Inductive RegExp : Type :=
| RNone
| REmptyString
| RClass (ranges : list (N * N))
| RSeq (a b : RegExp)
| RAlt (a b : RegExp)
| RStar (a : RegExp).

(** [a+], [a?], [a{n}] and [a{n,}] *)
Definition RPlus (a : RegExp) : RegExp := RSeq a (RStar a).
Definition ROpt (a : RegExp) : RegExp := RAlt a REmptyString.
Fixpoint RRepeat (n : nat) (a : RegExp) : RegExp :=
  match n with
  | O => REmptyString
  | S n' => RSeq a (RRepeat n' a)
  end.
Definition RAtLeast (n : nat) (a : RegExp) : RegExp := RSeq (RRepeat n a) (RStar a).

(** The class of one character, a range of a class, the single characters
    of a class. *)
Definition code (c : ascii) : N := N_of_ascii c.
Definition RChar (c : ascii) : RegExp := RClass [(code c, code c)].
Definition range (lo hi : ascii) : N * N := (code lo, code hi).
Definition chars (s : string) : list (N * N) :=
  map (λ c, (code c, code c)) (list_ascii_of_string s).

Definition in_ranges (ranges : list (N * N)) (c : N) : bool :=
  existsb (λ r, N.leb r.1 c && N.leb c r.2) ranges.

(** [Canonicalize] under the [i] flag without the [u] flag: the upper case
    of an ASCII letter.  A code unit from 128 on never becomes an ASCII one,
    and is left as it is. *)
Definition Canonicalize (c : N) : N :=
  if N.leb 97 c && N.leb c 122 then (c - 32)%N else c.

(** The lower case of an ASCII upper case letter. *)
Definition lower_case (c : N) : N :=
  if N.leb 65 c && N.leb c 90 then (c + 32)%N else c.

(** A class matches [ch] when one of its members has the canonical form of
    [ch]: the members with a given canonical form [u] are [u] and the lower
    case of [u]. *)
Definition class_test (ignoreCase : bool) (ranges : list (N * N)) (ch : N) : bool :=
  if ignoreCase
  then in_ranges ranges (Canonicalize ch)
       || in_ranges ranges (lower_case (Canonicalize ch))
  else in_ranges ranges ch.

Fixpoint nullable (r : RegExp) : bool :=
  match r with
  | RNone => false
  | REmptyString => true
  | RClass _ => false
  | RSeq a b => nullable a && nullable b
  | RAlt a b => nullable a || nullable b
  | RStar _ => true
  end.

Definition seq_of (a b : RegExp) : RegExp :=
  match a, b with
  | RNone, _ => RNone
  | _, RNone => RNone
  | REmptyString, _ => b
  | _, REmptyString => a
  | _, _ => RSeq a b
  end.

Definition alt_of (a b : RegExp) : RegExp :=
  match a, b with
  | RNone, _ => b
  | _, RNone => a
  | _, _ => RAlt a b
  end.

(** The pattern of the rests of the strings of [r] that start with [ch]. *)
Fixpoint derive (ignoreCase : bool) (ch : N) (r : RegExp) : RegExp :=
  match r with
  | RNone => RNone
  | REmptyString => RNone
  | RClass ranges => if class_test ignoreCase ranges ch then REmptyString else RNone
  | RSeq a b =>
      if nullable a
      then alt_of (seq_of (derive ignoreCase ch a) b) (derive ignoreCase ch b)
      else seq_of (derive ignoreCase ch a) b
  | RAlt a b => alt_of (derive ignoreCase ch a) (derive ignoreCase ch b)
  | RStar a => seq_of (derive ignoreCase ch a) (RStar a)
  end.

(** Whether the whole of [s] is a string of [r]. *)
Fixpoint matches (ignoreCase : bool) (r : RegExp) (s : string) : bool :=
  match s with
  | EmptyString => nullable r
  | String c rest => matches ignoreCase (derive ignoreCase (code c) r) rest
  end.

(** The strings of a pattern: what [matches] decides. *)
Inductive InLang (ignoreCase : bool) : RegExp → string → Prop :=
| InEmptyString :
    InLang ignoreCase REmptyString EmptyString
| InClass ranges c :
    class_test ignoreCase ranges (code c) = true →
    InLang ignoreCase (RClass ranges) (String c EmptyString)
| InSeq a b s t :
    InLang ignoreCase a s → InLang ignoreCase b t →
    InLang ignoreCase (RSeq a b) (s ++ t)
| InAltL a b s :
    InLang ignoreCase a s → InLang ignoreCase (RAlt a b) s
| InAltR a b s :
    InLang ignoreCase b s → InLang ignoreCase (RAlt a b) s
| InStarNil a :
    InLang ignoreCase (RStar a) EmptyString
| InStarCons a s t :
    InLang ignoreCase a s → InLang ignoreCase (RStar a) t →
    InLang ignoreCase (RStar a) (s ++ t).

(** The strings of a pattern under the [i] flag as the language defines
    them, over code units of any size and for any canonical form [canon] of
    code units: a class matches a code unit when one of its members has the
    same canonical form. *)
Inductive InLangCodes (canon : N → N) : RegExp → list N → Prop :=
| CodesEmptyString :
    InLangCodes canon REmptyString []
| CodesClass ranges a ch :
    in_ranges ranges a = true → canon a = canon ch →
    InLangCodes canon (RClass ranges) [ch]
| CodesSeq a b s t :
    InLangCodes canon a s → InLangCodes canon b t →
    InLangCodes canon (RSeq a b) (s ++ t)
| CodesAltL a b s :
    InLangCodes canon a s → InLangCodes canon (RAlt a b) s
| CodesAltR a b s :
    InLangCodes canon b s → InLangCodes canon (RAlt a b) s
| CodesStarNil a :
    InLangCodes canon (RStar a) []
| CodesStarCons a s t :
    InLangCodes canon a s → InLangCodes canon (RStar a) t →
    InLangCodes canon (RStar a) (s ++ t).

(** A pattern [/^source$/] with or without the [i] flag. *)
Record Pattern : Type := {
  source : RegExp;
  ignoreCase : bool
}.

(** [RegExp.prototype.test] on a string, for a pattern anchored at both
    ends and without the [g] and [y] flags. *)
Definition RegExp_test (re : Pattern) (s : string) : bool :=
  matches (ignoreCase re) (source re) s.

(** ** The built-in predicates *)

(** [[A-z0-9!#$%&'*+/=?^_`{|}~-]] *)
Definition atext : RegExp :=
  RClass (range "A" "z" :: range "0" "9" :: chars "!#$%&'*+/=?^_`{|}~-").

(** [[\x01-\x08\x0b\x0c\x0e-\x1f\x21\x23-\x5b\x5d-\x7f]] *)
Definition qtext : RegExp :=
  RClass [(0x01, 0x08); (0x0b, 0x0b); (0x0c, 0x0c); (0x0e, 0x1f);
          (0x21, 0x21); (0x23, 0x5b); (0x5d, 0x7f)]%N.

(** [[\x01-\x09\x0b\x0c\x0e-\x7f]] *)
Definition vchar : RegExp :=
  RClass [(0x01, 0x09); (0x0b, 0x0b); (0x0c, 0x0c); (0x0e, 0x7f)]%N.

(** [[\x01-\x08\x0b\x0c\x0e-\x1f\x21-\x5a\x53-\x7f]] *)
Definition dtext : RegExp :=
  RClass [(0x01, 0x08); (0x0b, 0x0b); (0x0c, 0x0c); (0x0e, 0x1f);
          (0x21, 0x5a); (0x53, 0x7f)]%N.

(** [[a-z0-9]] and [[a-z0-9-]] *)
Definition alnum : RegExp := RClass [range "a" "z"; range "0" "9"].
Definition alnum_dash : RegExp :=
  RClass [range "a" "z"; range "0" "9"; range "-" "-"].

(** [(?:[a-z0-9-]*[a-z0-9])?] *)
Definition label_rest : RegExp := ROpt (RSeq (RStar alnum_dash) alnum).

(** [25[0-5]|2[0-4][0-9]|[01]?[0-9][0-9]?] *)
Definition octet : RegExp :=
  RAlt (RSeq (RChar "2") (RSeq (RChar "5") (RClass [range "0" "5"])))
 (RAlt (RSeq (RChar "2") (RSeq (RClass [range "0" "4"]) (RClass [range "0" "9"])))
       (RSeq (ROpt (RClass [range "0" "1"]))
             (RSeq (RClass [range "0" "9"]) (ROpt (RClass [range "0" "9"]))))).

(** The double quote, code unit [0x22]. *)
Definition dquote : RegExp := RClass [(0x22, 0x22)%N].

(** The part before the [@]: dot-separated atoms, or a quoted string. *)
Definition local_part : RegExp :=
  RAlt (RSeq (RPlus atext) (RStar (RSeq (RChar ".") (RPlus atext))))
       (RSeq dquote (RSeq (RStar (RAlt qtext vchar)) dquote)).

(** The part after the [@]: a domain name, or an address in brackets. *)
Definition domain_part : RegExp :=
  RAlt (RSeq (RPlus (RSeq alnum (RSeq label_rest (RChar "."))))
             (RSeq (RAtLeast 2 alnum) label_rest))
       (RSeq (RChar "[")
       (RSeq (RRepeat 3 (RSeq octet (RChar ".")))
       (RSeq (RAlt octet
                   (RSeq (RStar alnum_dash)
                   (RSeq alnum
                   (RSeq (RChar ":")
                         (RPlus (RAlt dtext (RSeq (RChar "\") vchar)))))))
             (RChar "]")))).

Definition emailRegex : Pattern :=
  {| source := RSeq local_part (RSeq (RChar "@") domain_part);
     ignoreCase := true |}.

Definition email (value : FormValue) : bool :=
  ToBoolean value
  && JsType_eqb (typeof value) TString
  && match value with
     | VString s => RegExp_test emailRegex s
     | _ => false
     end.

(** The outcome of a call: a value, or an exception. *)
Inductive Completion (A : Type) : Type :=
| Normal (a : A)
| Throw (error : string).
Arguments Normal {A} a.
Arguments Throw {A} error.

Definition bind {A B} (c : Completion A) (k : A → Completion B) : Completion B :=
  match c with
  | Normal a => k a
  | Throw e => Throw e
  end.

(** [value.length] of an array, [value.getTime()] of a date. *)
Definition Array_length (value : FormValue) : nat :=
  match value with VArray items => length items | _ => 0 end.

Definition Date_getTime (value : FormValue) : option Z :=
  match value with VDate time => time | _ => None end.

(** [Number.isNaN] of a time value. *)
Definition Number_isNaN (time : option Z) : bool :=
  match time with None => true | Some _ => false end.

Section Required.
(** What [required] calls and this file does not define: [isEmpty], whose
    import from [lodash-es] is commented out, and the conversion of a number
    and of a date to a string. *)
Variable isEmpty : FormValue → Completion bool.
Variable Number_toString : spec_float → string.
Variable Date_toString : option Z → string.

(** [String(value)] *)
Definition String_ (value : FormValue) : string :=
  match value with
  | VDate time => Date_toString time
  | VString s => s
  | VNumber n => Number_toString n
  | VBoolean b => if b then "true" else "false"
  | VArray items => Array_join "," items
  | VNull => "null"
  | VUndefined => "undefined"
  end.

Definition required (value : FormValue) : Completion bool :=
  if Array_isArray value then
    Normal (ToBoolean_nat (Array_length value))
  else if is_undefined value || is_null value then
    Normal false
  else if JsType_eqb (typeof value) TBoolean then
    Normal true
  else if instanceof_Date value then
    Normal (negb (Number_isNaN (Date_getTime value)))
  else if JsType_eqb (typeof value) TObject then
    bind (isEmpty value) (λ empty, Normal (negb empty))
  else
    Normal (ToBoolean_nat (String.length (String_ value))).
End Required.

(** The guard of the [isEmpty] branch of [required], with the guards before
    it failed. *)
Definition reachesIsEmpty (value : FormValue) : bool :=
  negb (Array_isArray value)
  && negb (is_undefined value || is_null value)
  && negb (JsType_eqb (typeof value) TBoolean)
  && negb (instanceof_Date value)
  && JsType_eqb (typeof value) TObject.

(** [required] as the specification words it. *)
Definition required_spec (stringForm : FormValue → string) (value : FormValue) : bool :=
  match value with
  | VNull | VUndefined => false
  | VArray items => negb (bool_decide (items = []))
  | VDate time => negb (bool_decide (time = None))
  | VBoolean _ => true
  | _ => negb (bool_decide (stringForm value = EmptyString))
  end.

(** ** Rules *)

(** [Validator = boolean | ((value?: FormValue) => boolean)].  Rule functions
    are pure and total. *)
Inductive Validator : Type :=
| Flag (b : bool)
| Fn (f : FormValue → bool).

Definition typeof_rule (r : option Validator) : JsType :=
  match r with
  | Some (Flag _) => TBoolean
  | Some (Fn _) => TFunction
  | None => TUndefined
  end.

(** [!!r] for a rule value or a missing one: a function is truthy. *)
Definition ToBoolean_rule (r : option Validator) : bool :=
  match r with
  | Some (Flag b) => b
  | Some (Fn _) => true
  | None => false
  end.

(** The rule set of one field, in the order [Object.entries] lists it (the
    declaration order).  The names of the entries of an object are distinct;
    [rule_get] reads the first entry of a name. *)
Definition FieldRules : Type := list (string * Validator).

(** Property access [fieldRules.name]. *)
Fixpoint rule_get (name : string) (fieldRules : FieldRules) : option Validator :=
  match fieldRules with
  | [] => None
  | (k, r) :: rest => if String.eqb k name then Some r else rule_get name rest
  end.

(** The argument of [useForm], after [unref].  A field of the rules table
    that holds [undefined] behaves as a missing one and is not told apart. *)
Record FormValidation : Type := {
  form : option (gmap string FormValue);
  labels : option (gmap string string);
  rules : option (gmap string FieldRules)
}.

(** ** The message formatter *)

(** [param?: string | number]; a numeric parameter is a character count and
    is modelled for the integers below [10^21] in absolute value, which the
    language writes in full; other numbers are outside the model.  The pass
    never gives a parameter. *)
Inductive Param : Type :=
| PString (s : string)
| PNumber (n : Z).

(** The text of [${param}] in a template. *)
Definition template_param (param : option Param) : string :=
  match param with
  | Some (PString s) => s
  | Some (PNumber n) => pretty n
  | None => "undefined"
  end.

(** [label || 'field'] *)
Definition label_or_field (label : option string) : string :=
  match label with
  | Some l => if ToBoolean_string l then l else "field"
  | None => "field"
  end.

Definition getFieldErrorMessage
    (label : option string) (errorType : string) (param : option Param) : string :=
  if String.eqb errorType "required" then
    "The " ++ label_or_field label ++ " is required"
  else if String.eqb errorType "email" then
    "The " ++ label_or_field label ++ " must a valid email address."
  else if String.eqb errorType "numeric" then
    "The " ++ label_or_field label ++ " must be a valid number."
  else if String.eqb errorType "maxLength" then
    "The " ++ label_or_field label ++ " cannot have more than "
      ++ template_param param ++ " characters."
  else if String.eqb errorType "minLength" then
    "The " ++ label_or_field label ++ " must have "
      ++ template_param param ++ " or more characters."
  else
    "The " ++ label_or_field label ++ " is invalid".

(** ** The controller *)

(** The three cells [errorMessages], [generalErrorMessage] and [isFormValid].
    An entry of [errorMessages] may hold [undefined], which is [Some None]
    at its key. *)
Record FormState : Type := {
  errorMessages : gmap string (option string);
  generalErrorMessage : string;
  isFormValid : bool
}.

(** The cells as [useForm] creates them. *)
Definition useForm : FormState :=
  {| errorMessages := ∅; generalErrorMessage := EmptyString; isFormValid := false |}.

(** [Object.keys] *)
Definition Object_keys {A} (o : gmap string A) : list string :=
  (map_to_list o).*1.

(** [Object.entries] *)
Definition Object_entries {A} (o : gmap string A) : list (string * A) :=
  map_to_list o.

Definition setErrorMessage
    (errors : gmap string (list string)) (st : FormState) : FormState :=
  let errorResult :=
    foldl (λ (acc : gmap string (option string)) error,
             <[error := Some (Array_join ", " (default [] (errors !! error)))]> acc)
          ∅ (Object_keys errors) in
  {| errorMessages := errorResult;
     generalErrorMessage := generalErrorMessage st;
     isFormValid := isFormValid st |}.

(** [setGenericError(message = 'Error')] *)
Definition setGenericError (message : option string) (st : FormState) : FormState :=
  {| errorMessages := errorMessages st;
     generalErrorMessage := default "Error" message;
     isFormValid := isFormValid st |}.

Definition resetError (st : FormState) : FormState :=
  {| errorMessages := ∅;
     generalErrorMessage := EmptyString;
     isFormValid := isFormValid st |}.

(** *** The validation pass *)

(** The effective required state of a field (lines 127 to 131). *)
Definition isFieldRequired (fieldRules : FieldRules) (value : FormValue) : bool :=
  let isFieldRequired := ToBoolean_rule (rule_get "required" fieldRules) in
  match rule_get "requiredIf" fieldRules with
  | Some (Fn requiredIf) => requiredIf value
  | _ => isFieldRequired
  end.

(** The label the formatter receives for a field, read among the own
    properties of the labels table; at a key that names a property of
    [Object.prototype] the code reads the inherited value, which is outside
    the model. *)
Definition labelFor (labelsName : option (gmap string string)) (key : string)
  : option string :=
  match labelsName with
  | Some table =>
      match table !! key with
      | Some l => if ToBoolean_string l then Some l else None
      | None => None
      end
  | None => None
  end.

(** The state the loop over the rules of one field updates: the local
    [validationMessage] and the map [validationMessages]. *)
Definition RuleLoop : Type := (option string * gmap string (option string))%type.

(** The body of the loop over [Object.entries(fieldRules)]. *)
Definition ruleStep
    (labelsName : option (gmap string string)) (key : string) (value : FormValue)
    (fieldRules : FieldRules) (loop : RuleLoop) (entry : string * Validator)
  : RuleLoop :=
  let '(validationMessage, validationMessages) := loop in
  let '(ruleKey, ruleValue) := entry in
  let fieldErrorMessage := getFieldErrorMessage (labelFor labelsName key) ruleKey None in
  if (isFieldRequired fieldRules value && negb (ToBoolean value))
     || ToBoolean_opt validationMessage
  then (Some fieldErrorMessage, <[key := Some fieldErrorMessage]> validationMessages)
  else if String.eqb ruleKey "required" || String.eqb ruleKey "requiredIf"
  then loop
  else match ruleValue with
       | Fn f =>
           if negb (f value)
           then (validationMessage, <[key := validationMessage]> validationMessages)
           else loop
       | Flag _ => loop
       end.

(** [rulesList[key]] when the table is given and has the field. *)
Definition fieldRulesFor (rulesList : option (gmap string FieldRules)) (key : string)
  : option FieldRules :=
  match rulesList with
  | Some table => table !! key
  | None => None
  end.

(** The body of the loop over [Object.entries(formValue || {})]. *)
Definition fieldStep
    (rulesList : option (gmap string FieldRules))
    (labelsName : option (gmap string string))
    (validationMessages : gmap string (option string))
    (entry : string * FormValue) : gmap string (option string) :=
  let '(key, value) := entry in
  match fieldRulesFor rulesList key with
  | None => validationMessages
  | Some fieldRules =>
      snd (foldl (ruleStep labelsName key value fieldRules)
                 (None, validationMessages) fieldRules)
  end.

(** The map [validationMessages] the pass builds from the snapshot. *)
Definition buildValidationMessages (cfg : FormValidation) : gmap string (option string) :=
  foldl (fieldStep (rules cfg) (labels cfg)) ∅
        (Object_entries (default ∅ (form cfg))).

Definition triggerFormValidationManual (cfg : FormValidation) (st : FormState)
  : FormState :=
  let validationMessages := buildValidationMessages cfg in
  let valid := negb (ToBoolean_nat (length (Object_keys validationMessages))) in
  if negb valid
  then {| errorMessages := validationMessages;
          generalErrorMessage := generalErrorMessage st;
          isFormValid := valid |}
  else {| errorMessages := errorMessages st;
          generalErrorMessage := generalErrorMessage st;
          isFormValid := valid |}.

(** A rule entry that a field which is not required fails: a function under
    a name other than [required] and [requiredIf] that rejects the value. *)
Definition failingRule (value : FormValue) (entry : string * Validator) : bool :=
  negb (String.eqb entry.1 "required" || String.eqb entry.1 "requiredIf")
  && match entry.2 with
     | Fn f => negb (f value)
     | Flag _ => false
     end.

(** ** Snapshots used below *)

(** An empty [email] field that is required and has the [email] rule. *)
Definition signupForm : FormValidation :=
  {| form := Some {[ "email" := VString EmptyString ]};
     labels := None;
     rules := Some {[ "email" := [("required", Flag true); ("email", Fn email)] ]} |}.

(** The same with a label and the rules declared in the other order. *)
Definition signupFormLabelled : FormValidation :=
  {| form := Some {[ "email" := VString EmptyString ]};
     labels := Some {[ "email" := "Email" ]};
     rules := Some {[ "email" := [("email", Fn email); ("required", Flag true)] ]} |}.

(** A field that is not an address, with the [email] rule and no [required]. *)
Definition contactForm : FormValidation :=
  {| form := Some {[ "email" := VString "abc"; "name" := VString "x" ]};
     labels := None;
     rules := Some {[ "email" := [("email", Fn email)] ]} |}.

(** A field whose only rule is a [requiredIf] that answers [false]. *)
Definition optionalAgeForm : FormValidation :=
  {| form := Some {[ "age" := VString "abc" ]};
     labels := None;
     rules := Some {[ "age" := [("requiredIf", Fn (λ _, false))] ]} |}.

(** A form without a rules table. *)
Definition plainForm : FormValidation :=
  {| form := Some {[ "name" := VString "x" ]}; labels := None; rules := None |}.

(** A field with a literal [required: true] and a [requiredIf] that follows
    the truthiness of the value. *)
Definition overrideRules : FieldRules :=
  [("required", Flag true); ("requiredIf", Fn ToBoolean)].

(** ** The remaining predicate *)

Section Phone.
(** What [phone] takes from [libphonenumber-js], whose import is commented
    out: the type of country codes and [isValidPhoneNumber]. *)
Variable CountryCode : Type.
Variable isValidPhoneNumber : string → CountryCode → Completion bool.

(** [value: string | null | undefined]; [None] is [null] or [undefined],
    which [!!value] does not tell apart. *)
Definition phone (value : option string) (defaultCountry : CountryCode)
  : Completion bool :=
  if ToBoolean_opt value then
    match value with
    | Some s => isValidPhoneNumber s defaultCountry
    | None => Normal false
    end
  else Normal false.
End Phone.

(** ** The pass in closed form *)

(** What the loop over the rules of a field leaves at the key of the field,
    starting from a map without the key: the message of the rule declared
    last when the field is required and its value falsy, [undefined] when
    some function under a name other than [required] and [requiredIf]
    rejects the value, and nothing otherwise. *)
Definition fieldVerdict
    (labelsName : option (gmap string string)) (key : string) (value : FormValue)
    (fieldRules : FieldRules) : option (option string) :=
  if isFieldRequired fieldRules value && negb (ToBoolean value) then
    match last fieldRules with
    | Some (ruleKey, _) =>
        Some (Some (getFieldErrorMessage (labelFor labelsName key) ruleKey None))
    | None => None
    end
  else if existsb (failingRule value) fieldRules then Some None
  else None.

(** The verdicts of the fields of the form that have rules. *)
Definition verdicts (cfg : FormValidation) : gmap string (option string) :=
  map_imap (λ key value,
              fieldRulesFor (rules cfg) key ≫= fieldVerdict (labels cfg) key value)
           (default ∅ (form cfg)).

(** Whether the pass reports a field of the form that has these rules. *)
Definition fieldInvalid (value : FormValue) (fieldRules : FieldRules) : bool :=
  (isFieldRequired fieldRules value && negb (ToBoolean value))
  || existsb (failingRule value) fieldRules.

(** The snapshot with other labels. *)
Definition withLabels (labelsName : option (gmap string string)) (cfg : FormValidation)
  : FormValidation :=
  {| form := form cfg; labels := labelsName; rules := rules cfg |}.

(** A rule value that is a boolean. *)
Definition isFlag (entry : string * Validator) : bool :=
  match entry.2 with Flag _ => true | Fn _ => false end.

(** A form with a field for a count that holds zero and must be given. *)
Definition countForm : FormValidation :=
  {| form := Some {[ "count" := VNumber (S754_zero false); "name" := VString "x" ]};
     labels := Some {[ "count" := "Count" ]};
     rules := Some {[ "count" := [("required", Flag true); ("maxLength", Fn (λ _, true))];
                      "phone" := [("required", Flag true)];
                      "name" := [("required", Flag true); ("numeric", Flag true)] ]} |}.

(** ** Measures of strings and patterns used below *)

(** The code units of a string, and their canonical forms under the [i]
    flag. *)
Definition string_codes (s : string) : list N :=
  map code (list_ascii_of_string s).

Definition canonical_codes (s : string) : list N :=
  map Canonicalize (string_codes s).

(** Whether every class of a pattern lies at or below a code unit. *)
Fixpoint classes_below (bound : N) (r : RegExp) : bool :=
  match r with
  | RNone | REmptyString => true
  | RClass ranges => forallb (λ range, N.leb range.2 bound) ranges
  | RSeq a b | RAlt a b => classes_below bound a && classes_below bound b
  | RStar a => classes_below bound a
  end.

(** Whether every string of a pattern holds the code unit [ch]: a class
    that is [ch] alone, a sequence with such a part, an alternation of such
    parts. *)
Fixpoint always_has (ch : N) (r : RegExp) : bool :=
  match r with
  | RNone => true
  | REmptyString => false
  | RClass [(lo, hi)] => N.eqb lo ch && N.eqb hi ch
  | RClass _ => false
  | RSeq a b => always_has ch a || always_has ch b
  | RAlt a b => always_has ch a && always_has ch b
  | RStar _ => false
  end.

(** The values on which [required] and [!!value] disagree: the numbers zero
    and [NaN] and the boolean [false], which are falsy, and the empty array
    and the invalid date, which are truthy. *)
Definition requiredDiffersFromTruthiness (value : FormValue) : bool :=
  match value with
  | VNumber n => negb (ToBoolean_number n)
  | VBoolean b => negb b
  | VArray [] => true
  | VDate None => true
  | _ => false
  end.

(** A conversion of numbers to strings that is the one of the language on
    [NaN], the zeros and the infinities, and writes one digit for any other
    number; it stands for [String] of a number where a concrete conversion
    is needed. *)
Definition sampleNumberToString (n : spec_float) : string :=
  match n with
  | S754_nan => "NaN"
  | S754_zero _ => "0"
  | S754_infinity false => "Infinity"
  | S754_infinity true => "-Infinity"
  | S754_finite _ _ _ => "1"
  end.

(** The same rules in two declaration orders. *)
Definition signupFormReordered : FormValidation :=
  {| form := form signupForm;
     labels := labels signupForm;
     rules := Some {[ "email" := [("email", Fn email); ("required", Flag true)] ]} |}.

(** * Properties of the validation pass *)

(** ** The loop over the rules of one field *)

Section RuleLoop.
Variable labelsName : option (gmap string string).
Variable key : string.
Variable value : FormValue.
Variable fieldRules : FieldRules.

Local Abbreviation step := (ruleStep labelsName key value fieldRules).
Local Abbreviation message ruleKey :=
  (getFieldErrorMessage (labelFor labelsName key) ruleKey None).

Lemma ruleStep_other (loop : RuleLoop) entry (k : string) :
  k ≠ key → (step loop entry).2 !! k = loop.2 !! k.
Proof.
  intros Hk. destruct loop as [pending acc], entry as [ruleKey ruleValue].
  unfold ruleStep.
  repeat (case_match; simpl; try done); by rewrite lookup_insert_ne.
Qed.

Lemma ruleLoop_other rs (loop : RuleLoop) (k : string) :
  k ≠ key → (foldl step loop rs).2 !! k = loop.2 !! k.
Proof.
  intros Hk. revert loop.
  induction rs as [|entry rs IH]; intros loop; simpl; [done|].
  by rewrite IH, ruleStep_other.
Qed.

(** While the field is required and its value falsy, every entry takes the
    first branch and stores the message of its own rule name. *)
Lemma ruleStep_required (loop : RuleLoop) ruleKey ruleValue :
  isFieldRequired fieldRules value = true →
  ToBoolean value = false →
  step loop (ruleKey, ruleValue)
  = (Some (message ruleKey), <[key := Some (message ruleKey)]> loop.2).
Proof.
  intros Hreq Hval. destruct loop as [pending acc].
  unfold ruleStep. by rewrite Hreq, Hval.
Qed.

Lemma ruleLoop_required_last rs ruleKey ruleValue (loop : RuleLoop) :
  isFieldRequired fieldRules value = true →
  ToBoolean value = false →
  (foldl step loop (rs ++ [(ruleKey, ruleValue)])).2 !! key
  = Some (Some (message ruleKey)).
Proof.
  intros Hreq Hval.
  rewrite foldl_snoc, ruleStep_required by done.
  simpl. apply lookup_insert_eq.
Qed.

(** A field that is not required never gets a pending message: the loop
    stores [undefined] for it as soon as one entry fails. *)
Lemma ruleStep_not_required acc entry :
  isFieldRequired fieldRules value = false →
  step (None, acc) entry
  = (None, if failingRule value entry then <[key := None]> acc else acc).
Proof.
  intros Hreq. destruct entry as [ruleKey ruleValue].
  unfold ruleStep, failingRule. rewrite Hreq. simpl.
  destruct (String.eqb ruleKey "required" || String.eqb ruleKey "requiredIf");
    simpl; [done|].
  destruct ruleValue as [b|f]; [done|]. by destruct (f value).
Qed.

Lemma ruleLoop_not_required rs acc :
  isFieldRequired fieldRules value = false →
  foldl step (None, acc) rs
  = (None, if existsb (failingRule value) rs then <[key := None]> acc else acc).
Proof.
  intros Hreq. revert acc.
  induction rs as [|entry rs IH]; intros acc; cbn [foldl existsb]; [done|].
  rewrite ruleStep_not_required by done.
  destruct (failingRule value entry); cbn [orb]; rewrite IH; [|done].
  destruct (existsb (failingRule value) rs); [|done].
  by rewrite insert_insert_eq.
Qed.
End RuleLoop.

(** ** The loop over the fields *)

Section FieldLoop.
Variable rulesList : option (gmap string FieldRules).
Variable labelsName : option (gmap string string).

Local Abbreviation step := (fieldStep rulesList labelsName).

Lemma fieldStep_other acc key value (k : string) :
  k ≠ key → step acc (key, value) !! k = acc !! k.
Proof.
  intros Hk. unfold fieldStep.
  destruct (fieldRulesFor rulesList key) as [fieldRules|]; [|done].
  by rewrite ruleLoop_other.
Qed.

Lemma fieldStep_no_rules acc key value :
  fieldRulesFor rulesList key = None → step acc (key, value) = acc.
Proof. intros Hnone. unfold fieldStep. by rewrite Hnone. Qed.

Lemma fieldLoop_other es acc (k : string) :
  k ∉ es.*1 → foldl step acc es !! k = acc !! k.
Proof.
  revert acc. induction es as [|[key value] es IH]; intros acc Hk; cbn [foldl]; [done|].
  rewrite fmap_cons, not_elem_of_cons in Hk. destruct Hk as [Hne Hk].
  by rewrite IH, fieldStep_other.
Qed.

Lemma fieldLoop_no_rules es acc (k : string) :
  fieldRulesFor rulesList k = None → foldl step acc es !! k = acc !! k.
Proof.
  intros Hnone. revert acc.
  induction es as [|[key value] es IH]; intros acc; cbn [foldl]; [done|].
  rewrite IH. destruct (decide (k = key)) as [->|Hne].
  - by rewrite fieldStep_no_rules.
  - by rewrite fieldStep_other.
Qed.

(** With distinct keys, what the pass leaves at the key of a field is what
    the step of that field stored there. *)
Lemma fieldLoop_lookup es acc key value :
  NoDup es.*1 → (key, value) ∈ es →
  ∃ acc', foldl step acc es !! key = step acc' (key, value) !! key.
Proof.
  revert acc. induction es as [|[k v] es IH]; intros acc Hnd Hin.
  - by apply elem_of_nil in Hin.
  - rewrite fmap_cons in Hnd. apply NoDup_cons in Hnd as [Hk Hnd].
    apply elem_of_cons in Hin as [Heq|Hin]; cbn [foldl].
    + injection Heq as <- <-. exists acc. by rewrite fieldLoop_other.
    + by apply IH.
Qed.
End FieldLoop.

Lemma buildValidationMessages_lookup cfg fields key value :
form cfg = Some fields → fields !! key = Some value →
∃ acc, buildValidationMessages cfg !! key
       = fieldStep (rules cfg) (labels cfg) acc (key, value) !! key.
Proof.
intros Hform Hkey. unfold buildValidationMessages, Object_entries.
rewrite Hform. simpl. apply fieldLoop_lookup.
- apply NoDup_fst_map_to_list.
- by apply elem_of_map_to_list.
Qed.

Lemma valid_iff_empty (validationMessages : gmap string (option string)) :
negb (ToBoolean_nat (length (Object_keys validationMessages))) = true
↔ validationMessages = ∅.
Proof.
unfold ToBoolean_nat, Object_keys.
rewrite negb_involutive, length_fmap, length_map_to_list, Nat.eqb_eq.
apply map_size_empty_iff.
Qed.

Lemma invalid_iff_nonempty (validationMessages : gmap string (option string)) :
negb (ToBoolean_nat (length (Object_keys validationMessages))) = false
↔ validationMessages ≠ ∅.
Proof. rewrite <-valid_iff_empty. by destruct (negb _). Qed.

(** ** The pass as a whole *)

Lemma trigger_invalid cfg st :
  buildValidationMessages cfg ≠ ∅ →
  triggerFormValidationManual cfg st
  = {| errorMessages := buildValidationMessages cfg;
       generalErrorMessage := generalErrorMessage st;
       isFormValid := false |}.
Proof.
  intros Hne. apply invalid_iff_nonempty in Hne.
  unfold triggerFormValidationManual. by rewrite Hne.
Qed.

Lemma trigger_valid cfg st :
  buildValidationMessages cfg = ∅ →
  triggerFormValidationManual cfg st
  = {| errorMessages := errorMessages st;
       generalErrorMessage := generalErrorMessage st;
       isFormValid := true |}.
Proof.
  intros He. apply valid_iff_empty in He.
  unfold triggerFormValidationManual. by rewrite He.
Qed.

Lemma lookup_nonempty (m : gmap string (option string)) key x :
  m !! key = Some x → m ≠ ∅.
Proof. intros Hm ->. by rewrite lookup_empty in Hm. Qed.

(** A required field with a falsy value ends with the message of the rule
    that its rule set declares last. *)
Lemma required_message_names_last_rule cfg st fields key value rs ruleKey ruleValue :
  form cfg = Some fields →
  fields !! key = Some value →
  fieldRulesFor (rules cfg) key = Some (rs ++ [(ruleKey, ruleValue)])%list →
  isFieldRequired (rs ++ [(ruleKey, ruleValue)])%list value = true →
  ToBoolean value = false →
  errorMessages (triggerFormValidationManual cfg st) !! key
  = Some (Some (getFieldErrorMessage (labelFor (labels cfg) key) ruleKey None)).
Proof.
  intros Hform Hkey Hrules Hreq Hval.
  destruct (buildValidationMessages_lookup cfg fields key value Hform Hkey)
    as [acc Hacc].
  unfold fieldStep in Hacc. rewrite Hrules in Hacc.
  rewrite ruleLoop_required_last in Hacc by done.
  rewrite trigger_invalid by eauto using lookup_nonempty.
  exact Hacc.
Qed.

(** The message is the required one when [required] is declared last. *)
Lemma required_message_when_declared_last cfg st fields key value rs ruleValue :
  form cfg = Some fields →
  fields !! key = Some value →
  fieldRulesFor (rules cfg) key = Some (rs ++ [("required", ruleValue)])%list →
  isFieldRequired (rs ++ [("required", ruleValue)])%list value = true →
  ToBoolean value = false →
  errorMessages (triggerFormValidationManual cfg st) !! key
  = Some (Some ("The " ++ label_or_field (labelFor (labels cfg) key) ++ " is required")).
Proof.
  intros Hform Hkey Hrules Hreq Hval.
  by rewrite (required_message_names_last_rule cfg st fields key value rs
                "required" ruleValue).
Qed.

(** C1, at the snapshot [signupForm]: the [email] field is required
    ([required: true], no [requiredIf]) and its value, the empty string, is
    falsy; the pass stores for it the message of the [email] rule, which is
    declared after [required], and not the required message. *)
Theorem C1_required_message_overwritten :
  isFieldRequired [("required", Flag true); ("email", Fn email)] (VString EmptyString)
  = true
  ∧ ToBoolean (VString EmptyString) = false
  ∧ errorMessages (triggerFormValidationManual signupForm useForm) !! "email"
    = Some (Some "The field must a valid email address.")
  ∧ getFieldErrorMessage None "required" None = "The field is required".
Proof. repeat split; vm_compute; reflexivity. Qed.

(** The same with the rules in the other order and a label. *)
Example required_message_when_required_last :
  errorMessages (triggerFormValidationManual signupFormLabelled useForm) !! "email"
  = Some (Some "The Email is required").
Proof.
  apply (required_message_when_declared_last signupFormLabelled useForm
           {[ "email" := VString EmptyString ]} "email" (VString EmptyString)
           [("email", Fn email)] (Flag true)); reflexivity.
Qed.

(** The [requiredIf] entry is the switch of the required state and not a
    rule of the branch that calls the rule functions: at [optionalAgeForm] it
    answers [false], the field is not required, and the pass reports the
    form valid with no entry for the field. *)
Example requiredIf_switch_is_skipped :
  isFieldRequired [("requiredIf", Fn (λ _, false))] (VString "abc") = false
  ∧ (∃ ruleKey f, In (ruleKey, Fn f) [("requiredIf", Fn (λ _ : FormValue, false))]
                  ∧ f (VString "abc") = false)
  ∧ isFormValid (triggerFormValidationManual optionalAgeForm useForm) = true
  ∧ buildValidationMessages optionalAgeForm !! "age" = None.
Proof.
  split; [reflexivity|]. split.
  - exists "requiredIf", (λ _, false). split; [by left | reflexivity].
  - split; vm_compute; reflexivity.
Qed.

(** C2: for a field that is not required and whose rule set holds a function
    that answers [false] on the value, under a name that reaches the branch
    of the rule functions (any name other than [required] and [requiredIf],
    which are skipped before it), the pass sets the validity flag to [false]
    and stores the field in the error map; what it stores is the pending
    message variable, which is [undefined], and not the formatted message of
    the failing rule. *)
Theorem C2_failing_rule_stores_pending_message
    cfg st fields key value fieldRules ruleKey f :
  form cfg = Some fields →
  fields !! key = Some value →
  fieldRulesFor (rules cfg) key = Some fieldRules →
  isFieldRequired fieldRules value = false →
  In (ruleKey, Fn f) fieldRules →
  ruleKey ≠ "required" → ruleKey ≠ "requiredIf" →
  f value = false →
  let st' := triggerFormValidationManual cfg st in
  isFormValid st' = false
  ∧ buildValidationMessages cfg !! key = Some None
  ∧ errorMessages st' !! key = Some None
  ∧ errorMessages st' !! key
    ≠ Some (Some (getFieldErrorMessage (labelFor (labels cfg) key) ruleKey None)).
Proof.
  intros Hform Hkey Hrules Hreq Hin Hne1 Hne2 Hf st'.
  assert (Hfail : existsb (failingRule value) fieldRules = true).
  { apply existsb_exists. exists (ruleKey, Fn f). split; [done|].
    unfold failingRule. simpl. rewrite Hf.
    apply String.eqb_neq in Hne1, Hne2. by rewrite Hne1, Hne2. }
  assert (Hbuild : buildValidationMessages cfg !! key = Some None).
  { destruct (buildValidationMessages_lookup cfg fields key value Hform Hkey)
      as [acc ->].
    unfold fieldStep. rewrite Hrules, ruleLoop_not_required by done.
    rewrite Hfail. simpl. apply lookup_insert_eq. }
  subst st'. rewrite trigger_invalid by eauto using lookup_nonempty.
  simpl. rewrite Hbuild. done.
Qed.

Lemma C2_failing_rule_witness :
  let st' := triggerFormValidationManual contactForm useForm in
  isFormValid st' = false
  ∧ buildValidationMessages contactForm !! "email" = Some None
  ∧ errorMessages st' !! "email" = Some None
  ∧ errorMessages st' !! "email"
    ≠ Some (Some (getFieldErrorMessage (labelFor (labels contactForm) "email")
                    "email" None)).
Proof.
  apply (C2_failing_rule_stores_pending_message contactForm useForm
           {[ "email" := VString "abc"; "name" := VString "x" ]}
           "email" (VString "abc") [("email", Fn email)] "email" email).
  - reflexivity.
  - reflexivity.
  - reflexivity.
  - reflexivity.
  - left. reflexivity.
  - discriminate.
  - discriminate.
  - vm_compute. reflexivity.
Defined.

(** C3: when [requiredIf] is a function, the effective required state is
    its result on the value, whatever the [required] flag says; otherwise it
    is the truthiness of [required], a missing flag counting as [false]; and
    an entry visited with no message pending takes the required branch of
    the evaluator exactly when that state is true and the value falsy. *)
Theorem C3_effective_required fieldRules value :
  (∀ f, rule_get "requiredIf" fieldRules = Some (Fn f) →
        isFieldRequired fieldRules value = f value)
  ∧ (typeof_rule (rule_get "requiredIf" fieldRules) ≠ TFunction →
     isFieldRequired fieldRules value
     = ToBoolean_rule (rule_get "required" fieldRules))
  ∧ (rule_get "required" fieldRules = None →
     ToBoolean_rule (rule_get "required" fieldRules) = false)
  ∧ (∀ labelsName key acc ruleKey ruleValue,
       (ruleStep labelsName key value fieldRules (None, acc) (ruleKey, ruleValue)).1
       = if isFieldRequired fieldRules value && negb (ToBoolean value)
         then Some (getFieldErrorMessage (labelFor labelsName key) ruleKey None)
         else None).
Proof.
  unfold isFieldRequired. repeat split.
  - intros f Hif. by rewrite Hif.
  - intros Hty.
    destruct (rule_get "requiredIf" fieldRules) as [[b|f]|]; [done| |done].
    by destruct Hty.
  - intros Hreq. by rewrite Hreq.
  - intros labelsName key acc ruleKey ruleValue.
    unfold ruleStep, isFieldRequired. simpl.
    destruct (match rule_get "requiredIf" fieldRules with
              | Some (Fn requiredIf) => requiredIf value
              | _ => ToBoolean_rule (rule_get "required" fieldRules)
              end && negb (ToBoolean value)); simpl; [done|].
    destruct (String.eqb ruleKey "required" || String.eqb ruleKey "requiredIf");
      [done|].
    destruct ruleValue as [b|f]; [done|]. by destruct (negb (f value)).
Qed.

(** With [required: true] and [requiredIf: ToBoolean], the empty string is
    not required; with the flag alone it is. *)
Lemma C3_effective_required_witness :
  isFieldRequired overrideRules (VString EmptyString) = false
  ∧ isFieldRequired [("required", Flag true)] (VString EmptyString) = true
  ∧ isFieldRequired [("email", Fn email)] (VString EmptyString) = false.
Proof.
  split; [|split].
  - destruct (C3_effective_required overrideRules (VString EmptyString))
      as (Hfn & _).
    exact (Hfn ToBoolean eq_refl).
  - destruct (C3_effective_required [("required", Flag true)] (VString EmptyString))
      as (_ & Hflag & _).
    rewrite Hflag; [reflexivity | discriminate].
  - destruct (C3_effective_required [("email", Fn email)] (VString EmptyString))
      as (_ & Hflag & Hnone & _).
    rewrite Hflag; [exact (Hnone eq_refl) | discriminate].
Defined.

(** C4: after a pass the validity flag is [true] exactly when the map the
    pass built is empty; the visible error map is that map when it is not
    empty and is the one from before the pass when it is; the form-level
    message is not touched. *)
Theorem C4_validity_and_error_state cfg st :
  let validationMessages := buildValidationMessages cfg in
  let st' := triggerFormValidationManual cfg st in
  (isFormValid st' = true ↔ validationMessages = ∅)
  ∧ (validationMessages ≠ ∅ → errorMessages st' = validationMessages)
  ∧ (validationMessages = ∅ → errorMessages st' = errorMessages st)
  ∧ generalErrorMessage st' = generalErrorMessage st.
Proof.
  intros validationMessages st'. subst st'.
  destruct (decide (validationMessages = ∅)) as [He|Hne].
  - rewrite trigger_valid by done. simpl. repeat split; done.
  - rewrite trigger_invalid by done. simpl. repeat split; done.
Qed.

(** An injected error survives a pass over [plainForm], which is valid, and
    is replaced by a pass over [contactForm], which is not. *)
Lemma C4_validity_and_error_state_witness :
  let injected := setErrorMessage {[ "email" := ["taken"] ]} useForm in
  errorMessages (triggerFormValidationManual plainForm injected)
  = errorMessages injected
  ∧ errorMessages (triggerFormValidationManual contactForm injected)
    = buildValidationMessages contactForm.
Proof.
  intros injected. split.
  - destruct (C4_validity_and_error_state plainForm injected) as (_ & _ & Hkeep & _).
    apply Hkeep. vm_compute. reflexivity.
  - destruct (C4_validity_and_error_state contactForm injected) as (_ & Hnew & _).
    apply Hnew. apply (lookup_nonempty _ "email" None). vm_compute. reflexivity.
Defined.

(** C5: a second pass over the same snapshot leaves the state of the first
    one: the same error map and the same validity flag. *)
Theorem C5_trigger_idempotent cfg st :
  let first := triggerFormValidationManual cfg st in
  let second := triggerFormValidationManual cfg first in
  errorMessages second = errorMessages first
  ∧ isFormValid second = isFormValid first
  ∧ second = first.
Proof.
  intros first second. subst first second.
  destruct (decide (buildValidationMessages cfg = ∅)) as [He|Hne].
  - by rewrite !trigger_valid.
  - by rewrite !trigger_invalid.
Qed.

Lemma build_without_rules cfg :
  rules cfg = None → buildValidationMessages cfg = ∅.
Proof.
  intros Hrules. apply map_eq. intros key.
  unfold buildValidationMessages.
  rewrite fieldLoop_no_rules; [done|]. by rewrite Hrules.
Qed.

(** C8: a field without an entry in the rules table is not in the map the
    pass builds, whatever the form holds for it, and the pass adds no error
    for it to the visible map; without a rules table, a pass on the cells as
    [useForm] creates them sets the validity flag and leaves the error map
    empty. *)
Theorem C8_field_without_rules cfg st :
  (∀ key, fieldRulesFor (rules cfg) key = None →
     buildValidationMessages cfg !! key = None
     ∧ (errorMessages st !! key = None →
        errorMessages (triggerFormValidationManual cfg st) !! key = None))
  ∧ (rules cfg = None →
     isFormValid (triggerFormValidationManual cfg useForm) = true
     ∧ errorMessages (triggerFormValidationManual cfg useForm) = ∅).
Proof.
  split.
  - intros key Hnone.
    assert (Hbuild : buildValidationMessages cfg !! key = None).
    { unfold buildValidationMessages. by rewrite fieldLoop_no_rules. }
    split; [done|]. intros Hst.
    destruct (decide (buildValidationMessages cfg = ∅)) as [He|Hne].
    + by rewrite trigger_valid.
    + by rewrite trigger_invalid.
  - intros Hrules. by rewrite trigger_valid by by apply build_without_rules.
Qed.

(** The [name] field of [contactForm] has no rules and [plainForm] has no
    rules table. *)
Lemma C8_field_without_rules_witness :
  buildValidationMessages contactForm !! "name" = None
  ∧ isFormValid (triggerFormValidationManual plainForm useForm) = true
  ∧ errorMessages (triggerFormValidationManual plainForm useForm) = ∅.
Proof.
  split.
  - destruct (C8_field_without_rules contactForm useForm) as [Hfield _].
    destruct (Hfield "name" eq_refl) as [Hbuild _]. exact Hbuild.
  - destruct (C8_field_without_rules plainForm useForm) as [_ Hnone].
    apply Hnone. reflexivity.
Defined.

Lemma foldl_insert_lookup {A} (g : string → A) keys (acc : gmap string A) key :
  foldl (λ acc k, <[k := g k]> acc) acc keys !! key
  = if bool_decide (key ∈ keys) then Some (g key) else acc !! key.
Proof.
  revert acc. induction keys as [|k keys IH]; intros acc; cbn [foldl]; [done|].
  rewrite IH. destruct (decide (key = k)) as [->|Hne].
  - rewrite lookup_insert_eq, (bool_decide_eq_true_2 (k ∈ k :: keys)) by left.
    by case_bool_decide.
  - rewrite lookup_insert_ne by done.
    case_bool_decide as Hin.
    + by rewrite bool_decide_eq_true_2 by by right.
    + rewrite bool_decide_eq_false_2; [done|].
      intros [?|?]%elem_of_cons; done.
Qed.

Lemma elem_of_Object_keys {A} (o : gmap string A) key :
  key ∈ Object_keys o ↔ is_Some (o !! key).
Proof.
  unfold Object_keys. rewrite list_elem_of_fmap. split.
  - intros ([k x] & -> & Hin). apply elem_of_map_to_list in Hin. by exists x.
  - intros [x Hx]. exists (key, x). split; [done|]. by apply elem_of_map_to_list.
Qed.

(** C9: after [setErrorMessage] the error map holds, for every field of the
    injected map and for no other, the messages of the field joined with a
    comma and a space; injecting the messages [bad] and [taken] for [email]
    makes its message [bad, taken]. *)
Theorem C9_setErrorMessage_joins errors st key :
  errorMessages (setErrorMessage errors st) !! key
  = (λ messages, Some (Array_join ", " messages)) <$> errors !! key
  ∧ errorMessages (setErrorMessage {[ "email" := ["bad"; "taken"] ]} st) !! "email"
    = Some (Some "bad, taken").
Proof.
  split; [|reflexivity].
  unfold setErrorMessage. simpl.
  rewrite (foldl_insert_lookup
             (λ error, Some (Array_join ", " (default [] (errors !! error))))).
  case_bool_decide as Hin.
  - apply elem_of_Object_keys in Hin as [messages Hm]. by rewrite Hm.
  - rewrite lookup_empty. destruct (errors !! key) as [messages|] eqn:Hm; [|done].
    destruct Hin. apply elem_of_Object_keys. by exists messages.
Qed.

(** C10: the cells as [useForm] creates them: no field error, an empty
    form-level message, and a validity flag that is [false]; the flag of a
    form without errors becomes [true] with the first pass. *)
Theorem C10_initial_state :
  errorMessages useForm = ∅
  ∧ (∀ key, errorMessages useForm !! key = None)
  ∧ generalErrorMessage useForm = EmptyString
  ∧ isFormValid useForm = false
  ∧ isFormValid (triggerFormValidationManual plainForm useForm) = true.
Proof.
  split; [reflexivity|]. split.
  - intros key. apply lookup_empty.
  - split; [reflexivity|]. split; [reflexivity|].
    rewrite trigger_valid; [reflexivity|]. by apply build_without_rules.
Qed.

(** * Properties of the built-in predicates *)

Section RequiredProperties.
Variable isEmpty : FormValue → Completion bool.
Variable Number_toString : spec_float → string.
Variable Date_toString : option Z → string.

Local Abbreviation required' := (required isEmpty Number_toString Date_toString).
Local Abbreviation String' := (String_ Number_toString Date_toString).

Lemma ToBoolean_nat_length {A} (l : list A) :
  ToBoolean_nat (length l) = negb (bool_decide (l = [])).
Proof. by destruct l. Qed.

Lemma ToBoolean_nat_string_length (s : string) :
  ToBoolean_nat (String.length s) = negb (bool_decide (s = EmptyString)).
Proof. by destruct s. Qed.

Lemma reachesIsEmpty_never value : reachesIsEmpty value = false.
Proof. by destruct value. Qed.

(** C6: [required] answers [false] for [null] and [undefined], for the empty
    array and no other array, for the invalid date and no other date, [true]
    for a boolean, and for the values left, strings and numbers, [false]
    exactly when [String(value)] is empty. *)
Theorem C6_required_as_specified value :
  required' value = Normal (required_spec String' value).
Proof.
  destruct value as [time|s|n|b|items| |]; simpl; try done.
  - by destruct time.
  - unfold required. simpl. by rewrite ToBoolean_nat_string_length.
  - unfold required. simpl. by rewrite ToBoolean_nat_string_length.
  - unfold required. simpl. by rewrite ToBoolean_nat_length.
Qed.

(** C7: on every value of the domain [required] returns a boolean and does
    not throw, whatever [isEmpty] does, because no value of the domain passes
    the guards that lead to the call of [isEmpty]; and [email] is [false]
    outside the nonempty strings, where it is the test of the pattern. *)
Theorem C7_predicates_total value :
  (∃ b, required' value = Normal b)
  ∧ (∀ isEmpty', required isEmpty' Number_toString Date_toString value
                 = required' value)
  ∧ reachesIsEmpty value = false
  ∧ (∃ b, email value = b
          ∧ b = match value with
                | VString s => ToBoolean_string s && RegExp_test emailRegex s
                | _ => false
                end).
Proof.
  split; [|split; [|split]].
  - destruct value as [time|s|n|b|items| |]; unfold required; simpl; eauto.
  - intros isEmpty'. by destruct value.
  - apply reachesIsEmpty_never.
  - eexists. split; [reflexivity|].
    destruct value as [time|s|n|b|items| |]; unfold email; simpl;
      rewrite ?andb_false_r, ?andb_true_r; done.
Qed.
End RequiredProperties.

(** With [isEmpty] unbound, so that a call of it throws, [required] still
    returns on the domain. *)
Example required_without_isEmpty Number_toString Date_toString :
  let isEmpty := λ _ : FormValue, Throw "ReferenceError: isEmpty is not defined" in
  required isEmpty Number_toString Date_toString (VArray []) = Normal false
  ∧ required isEmpty Number_toString Date_toString (VDate None) = Normal false
  ∧ required isEmpty Number_toString Date_toString (VDate (Some 0%Z)) = Normal true
  ∧ required isEmpty Number_toString Date_toString (VBoolean false) = Normal true
  ∧ required isEmpty Number_toString Date_toString (VString "a") = Normal true.
Proof. repeat split. Qed.

Example email_examples :
  email (VString "john.doe@example.com") = true
  ∧ email (VString "JOHN@EXAMPLE.COM") = true
  ∧ email (VString "abc") = false
  ∧ email (VString EmptyString) = false
  ∧ email (VNumber (S754_zero false)) = false
  ∧ email VNull = false
  ∧ email VUndefined = false.
Proof. repeat split; vm_compute; reflexivity. Qed.

Lemma Canonicalize_cases c :
  ((97 ≤ c ≤ 122)%N ∧ Canonicalize c = (c - 32)%N)
  ∨ (¬ (97 ≤ c ≤ 122)%N ∧ Canonicalize c = c).
Proof.
  unfold Canonicalize.
  destruct (N.leb_spec0 97 c), (N.leb_spec0 c 122); simpl; (left + right); lia.
Qed.

Lemma lower_case_cases c :
  ((65 ≤ c ≤ 90)%N ∧ lower_case c = (c + 32)%N)
  ∨ (¬ (65 ≤ c ≤ 90)%N ∧ lower_case c = c).
Proof.
  unfold lower_case.
  destruct (N.leb_spec0 65 c), (N.leb_spec0 c 90); simpl; (left + right); lia.
Qed.

(** Under the [i] flag a class matches a code unit exactly when one of its
    members has the same canonical form. *)
Lemma class_test_ignoreCase ranges ch :
  class_test true ranges ch = true
  ↔ ∃ a, in_ranges ranges a = true ∧ Canonicalize a = Canonicalize ch.
Proof.
  unfold class_test. rewrite orb_true_iff. split.
  - intros [Hin|Hin]; eexists; (split; [exact Hin|]).
    + destruct (Canonicalize_cases ch) as [[? Hc]|[? Hc]];
        destruct (Canonicalize_cases (Canonicalize ch)) as [[? ->]|[? ->]]; lia.
    + destruct (Canonicalize_cases ch) as [[? Hc]|[? Hc]];
        destruct (lower_case_cases (Canonicalize ch)) as [[? Hl]|[? Hl]];
        destruct (Canonicalize_cases (lower_case (Canonicalize ch))) as [[? ->]|[? ->]];
        lia.
  - intros (a & Hin & Hcanon).
    destruct (Canonicalize_cases a) as [[? Ha]|[? Ha]].
    + right. destruct (lower_case_cases (Canonicalize ch)) as [[? Hl]|[? Hl]];
        [|lia].
      replace (lower_case (Canonicalize ch)) with a by lia. done.
    + left. by rewrite <-Hcanon, Ha.
Qed.

(** * The matcher decides the strings of a pattern *)

Section Matcher.
Variable ic : bool.

Lemma append_empty_l (t : string) : EmptyString ++ t = t.
Proof. reflexivity. Qed.

Lemma append_cons c (s t : string) : String c s ++ t = String c (s ++ t).
Proof. reflexivity. Qed.

Lemma append_empty_r (s : string) : s ++ EmptyString = s.
Proof.
  induction s as [|c s IH]; [done|]. by rewrite append_cons, IH.
Qed.

Lemma append_eq_empty (s t : string) :
  s ++ t = EmptyString → s = EmptyString ∧ t = EmptyString.
Proof. by destruct s. Qed.

Lemma InLang_none s : ¬ InLang ic RNone s.
Proof. inversion 1. Qed.

Lemma nullable_spec r : nullable r = true ↔ InLang ic r EmptyString.
Proof.
  split.
  - induction r as [| |ranges|a IHa b IHb|a IHa b IHb|a IHa]; simpl; try done.
    + constructor.
    + intros [Ha Hb]%andb_true_iff.
      apply (InSeq ic a b EmptyString EmptyString); auto.
    + intros [Ha|Hb]%orb_true_iff; [apply InAltL | apply InAltR]; auto.
    + constructor.
  - intros H. remember EmptyString as s eqn:Hs.
    induction H as [|ranges c Hc|a b s t Ha IHa Hb IHb|a b s Ha IHa|a b s Hb IHb
                   |a|a s t Ha IHa Ht IHt]; simpl; try done.
    + apply append_eq_empty in Hs as [-> ->]. by rewrite IHa, IHb.
    + by rewrite IHa.
    + rewrite IHb by done. apply orb_true_r.
Qed.

Lemma seq_of_spec a b s : InLang ic (seq_of a b) s ↔ InLang ic (RSeq a b) s.
Proof.
  assert (Hnone_l : ∀ b, InLang ic (RSeq RNone b) s → False).
  { intros b' H. inversion H; subst. by eapply InLang_none. }
  assert (Hnone_r : ∀ a, InLang ic (RSeq a RNone) s → False).
  { intros a' H. inversion H; subst. by eapply InLang_none. }
  assert (Hempty_l : ∀ b, InLang ic b s ↔ InLang ic (RSeq REmptyString b) s).
  { intros b'. split.
    - intros H. apply (InSeq ic REmptyString b' EmptyString s); [constructor|done].
    - intros H. inversion H as [| |a0 b0 s0 t0 Ha Hb| | | |]; subst.
      by inversion Ha; subst. }
  assert (Hempty_r : ∀ a, InLang ic a s ↔ InLang ic (RSeq a REmptyString) s).
  { intros a'. split.
    - intros H. rewrite <-(append_empty_r s). apply InSeq; [done|constructor].
    - intros H. inversion H as [| |a0 b0 s0 t0 Ha Hb| | | |]; subst.
      inversion Hb; subst. by rewrite append_empty_r. }
  destruct a, b; simpl; try done;
    try (split; [by intros ?%InLang_none | by intros ?%Hnone_l]);
    try (split; [by intros ?%InLang_none | by intros ?%Hnone_r]);
    try apply Hempty_l; try apply Hempty_r.
Qed.

Lemma alt_of_spec a b s : InLang ic (alt_of a b) s ↔ InLang ic (RAlt a b) s.
Proof.
  assert (Hl : ∀ b, InLang ic b s ↔ InLang ic (RAlt RNone b) s).
  { intros b'. split; [apply InAltR|].
    intros H. inversion H; subst; [by exfalso; eapply InLang_none|done]. }
  assert (Hr : ∀ a, InLang ic a s ↔ InLang ic (RAlt a RNone) s).
  { intros a'. split; [apply InAltL|].
    intros H. inversion H; subst; [done|by exfalso; eapply InLang_none]. }
  destruct a, b; simpl; try done; try apply Hl; try apply Hr.
Qed.

(** A nonempty string of [a*] starts with a nonempty string of [a]. *)
Lemma InLang_star_cons a c s :
  InLang ic (RStar a) (String c s) →
  ∃ s1 s2, s = s1 ++ s2 ∧ InLang ic a (String c s1) ∧ InLang ic (RStar a) s2.
Proof.
  intros H. remember (RStar a) as r eqn:Hr. remember (String c s) as w eqn:Hw.
  revert s Hw.
  induction H as [|ranges c' Hc|a' b s' t Ha IHa Hb IHb|a' b s' Ha IHa|a' b s' Hb IHb
                 |a'|a' s' t Ha IHa Ht IHt]; intros u Hw; try done.
  injection Hr as ->. destruct s' as [|c' s'].
  - apply IHt; [done|exact Hw].
  - change (String c' (s' ++ t) = String c u) in Hw.
    injection Hw as -> <-. by exists s', t.
Qed.

Lemma derive_spec c r s :
  InLang ic (derive ic (code c) r) s ↔ InLang ic r (String c s).
Proof.
  revert s.
  induction r as [| |ranges|a IHa b IHb|a IHa b IHb|a IHa]; intros s; simpl.
  - split; inversion 1.
  - split; inversion 1.
  - destruct (class_test ic ranges (code c)) eqn:Htest; split.
    + inversion 1; subst. by constructor.
    + inversion 1; subst. constructor.
    + inversion 1.
    + inversion 1; subst. congruence.
  - assert (Hleft : InLang ic (seq_of (derive ic (code c) a) b) s
                    ↔ ∃ s1 s2, s = s1 ++ s2 ∧ InLang ic a (String c s1)
                               ∧ InLang ic b s2).
    { rewrite seq_of_spec. split.
      - inversion 1 as [| |a0 b0 s1 s2 H1 H2| | | |]; subst.
        exists s1, s2. by rewrite <-IHa.
      - intros (s1 & s2 & -> & H1 & H2). apply InSeq; [by apply IHa|done]. }
    destruct (nullable a) eqn:Hnull.
    + rewrite alt_of_spec. split.
      * inversion 1 as [| | |a0 b0 s0 H1|a0 b0 s0 H1| |]; subst.
        -- apply Hleft in H1 as (s1 & s2 & -> & H1 & H2).
           by apply (InSeq ic a b (String c s1) s2).
        -- apply (InSeq ic a b EmptyString (String c s)); [|by apply IHb].
           by apply nullable_spec.
      * inversion 1 as [| |a0 b0 s1 s2 H1 H2| | | |]; subst.
        match goal with E : _ ++ _ = String _ _ |- _ => rename E into Hs end.
        destruct s1 as [|c1 s1].
        -- change (s2 = String c s) in Hs. subst s2. apply InAltR. by apply IHb.
        -- change (String c1 (s1 ++ s2) = String c s) in Hs.
           injection Hs as -> <-. apply InAltL, Hleft. by exists s1, s2.
    + rewrite Hleft. split.
      * intros (s1 & s2 & -> & H1 & H2). by apply (InSeq ic a b (String c s1) s2).
      * inversion 1 as [| |a0 b0 s1 s2 H1 H2| | | |]; subst.
        match goal with E : _ ++ _ = String _ _ |- _ => rename E into Hs end.
        destruct s1 as [|c1 s1].
        -- apply nullable_spec in H1. congruence.
        -- change (String c1 (s1 ++ s2) = String c s) in Hs.
           injection Hs as -> <-. by exists s1, s2.
  - rewrite alt_of_spec. split.
    + inversion 1; subst; [apply InAltL; by apply IHa | apply InAltR; by apply IHb].
    + inversion 1; subst; [apply InAltL; by apply IHa | apply InAltR; by apply IHb].
  - rewrite seq_of_spec. split.
    + inversion 1 as [| |a0 b0 s1 s2 H1 H2| | | |]; subst.
      apply (InStarCons ic a (String c s1) s2); [by apply IHa|done].
    + intros (s1 & s2 & -> & H1 & H2)%InLang_star_cons.
      apply InSeq; [by apply IHa|done].
Qed.

(** [matches] answers [true] exactly on the strings of the pattern. *)
Lemma matches_spec r s : matches ic r s = true ↔ InLang ic r s.
Proof.
  revert r. induction s as [|c s IH]; intros r; simpl.
  - apply nullable_spec.
  - by rewrite IH, derive_spec.
Qed.
End Matcher.

(** [emailRegex.test] answers [true] exactly on the strings of the pattern,
    read without regard to case. *)
Lemma emailRegex_test_spec s :
  RegExp_test emailRegex s = true ↔ InLang true (source emailRegex) s.
Proof. apply matches_spec. Qed.

(** * The pass in closed form *)

Section ClosedForm.
Variable rulesList : option (gmap string FieldRules).
Variable labelsName : option (gmap string string).

(** While no entry takes the required branch, no message is pending: the
    loop stores [undefined] as soon as one entry fails. *)
Lemma ruleLoop_no_short_circuit key value fieldRules rs acc :
  isFieldRequired fieldRules value && negb (ToBoolean value) = false →
  foldl (ruleStep labelsName key value fieldRules) (None, acc) rs
  = (None, if existsb (failingRule value) rs then <[key := None]> acc else acc).
Proof.
  intros Hshort. revert acc.
  induction rs as [|[ruleKey ruleValue] rs IH]; intros acc; cbn [foldl existsb];
    [done|].
  assert (Hstep : ruleStep labelsName key value fieldRules (None, acc)
                    (ruleKey, ruleValue)
                  = (None, if failingRule value (ruleKey, ruleValue)
                           then <[key := None]> acc else acc)).
  { unfold ruleStep, failingRule. rewrite Hshort. simpl.
    destruct (String.eqb ruleKey "required" || String.eqb ruleKey "requiredIf");
      simpl; [done|].
    destruct ruleValue as [b|f]; [done|]. by destruct (f value). }
  rewrite Hstep.
  destruct (failingRule value (ruleKey, ruleValue)); cbn [orb]; rewrite IH; [|done].
  destruct (existsb (failingRule value) rs); [|done].
  by rewrite insert_insert_eq.
Qed.

Lemma isFieldRequired_nil value : isFieldRequired [] value = false.
Proof. reflexivity. Qed.

(** The step of a field, from a map without its key, leaves its verdict. *)
Lemma fieldStep_verdict acc key value :
  acc !! key = None →
  fieldStep rulesList labelsName acc (key, value) !! key
  = fieldRulesFor rulesList key ≫= fieldVerdict labelsName key value.
Proof.
  intros Hacc. unfold fieldStep.
  destruct (fieldRulesFor rulesList key) as [fieldRules|]; simpl; [|done].
  unfold fieldVerdict.
  destruct (isFieldRequired fieldRules value && negb (ToBoolean value)) eqn:Hshort.
  - apply andb_true_iff in Hshort as [Hreq Hval%negb_true_iff].
    destruct (last fieldRules) as [[ruleKey ruleValue]|] eqn:Hlast.
    + apply last_Some in Hlast as [rs ->].
      by rewrite ruleLoop_required_last.
    + apply last_None in Hlast as ->. by rewrite isFieldRequired_nil in Hreq.
  - rewrite ruleLoop_no_short_circuit by done. simpl.
    destruct (existsb (failingRule value) fieldRules); [|done].
    apply lookup_insert_eq.
Qed.

(** With distinct keys and a start without the key, the step of the field
    still starts from a map without the key. *)
Lemma fieldLoop_lookup_fresh es acc key value :
  NoDup es.*1 → (key, value) ∈ es → acc !! key = None →
  ∃ acc', acc' !! key = None
          ∧ foldl (fieldStep rulesList labelsName) acc es !! key
            = fieldStep rulesList labelsName acc' (key, value) !! key.
Proof.
  revert acc. induction es as [|[k v] es IH]; intros acc Hnd Hin Hacc.
  - by apply elem_of_nil in Hin.
  - rewrite fmap_cons in Hnd. apply NoDup_cons in Hnd as [Hk Hnd].
    apply elem_of_cons in Hin as [Heq|Hin]; cbn [foldl].
    + injection Heq as <- <-. exists acc. split; [done|]. by rewrite fieldLoop_other.
    + apply IH; [done|done|]. rewrite fieldStep_other; [done|].
      intros ->. apply Hk. by apply (list_elem_of_fmap_2 fst _ (k, value)).
Qed.
End ClosedForm.

(** What the pass builds at a key, for a field of the form and for a key the
    form lacks. *)
Lemma build_lookup_verdict cfg key :
  buildValidationMessages cfg !! key
  = default ∅ (form cfg) !! key
    ≫= λ value, fieldRulesFor (rules cfg) key ≫= fieldVerdict (labels cfg) key value.
Proof.
  unfold buildValidationMessages, Object_entries.
  destruct (default ∅ (form cfg) !! key) as [value|] eqn:Hkey; simpl.
  - destruct (fieldLoop_lookup_fresh (rules cfg) (labels cfg)
                (map_to_list (default ∅ (form cfg))) ∅ key value)
      as (acc' & Hacc' & ->).
    + apply NoDup_fst_map_to_list.
    + by apply elem_of_map_to_list.
    + apply lookup_empty.
    + by apply fieldStep_verdict.
  - rewrite fieldLoop_other; [apply lookup_empty|].
    intros Hin. apply (elem_of_Object_keys (default ∅ (form cfg))) in Hin as [v Hv].
    congruence.
Qed.

Lemma fieldVerdict_None labelsName key value fieldRules :
  fieldVerdict labelsName key value fieldRules = None
  ↔ fieldInvalid value fieldRules = false.
Proof.
  unfold fieldVerdict, fieldInvalid.
  destruct (isFieldRequired fieldRules value && negb (ToBoolean value)) eqn:Hshort;
    simpl.
  - destruct (last fieldRules) as [[ruleKey ruleValue]|] eqn:Hlast; [done|].
    apply last_None in Hlast as ->. done.
  - by destruct (existsb (failingRule value) fieldRules).
Qed.

(** X1: the map the pass builds is the map of the verdicts of the fields of
    the form: the loops over the fields and over their rules come to the
    closed form [fieldVerdict] at every field that has rules, and to nothing
    at every other key. *)
Theorem X1_pass_builds_verdicts cfg :
  buildValidationMessages cfg = verdicts cfg.
Proof.
  apply map_eq. intros key. unfold verdicts.
  by rewrite build_lookup_verdict, map_lookup_imap.
Qed.

(** X2: after a pass the validity flag is [true] exactly when no field of
    the form that has rules is required with a falsy value, or has a
    function under a name other than [required] and [requiredIf] that
    rejects its value. *)
Theorem X2_valid_iff_no_field_invalid cfg st :
  isFormValid (triggerFormValidationManual cfg st) = true
  ↔ ∀ key value fieldRules,
      default ∅ (form cfg) !! key = Some value →
      fieldRulesFor (rules cfg) key = Some fieldRules →
      fieldInvalid value fieldRules = false.
Proof.
  unfold triggerFormValidationManual.
  assert (Hflag : ∀ b : bool, isFormValid
            (if negb b
             then {| errorMessages := buildValidationMessages cfg;
                     generalErrorMessage := generalErrorMessage st;
                     isFormValid := b |}
             else {| errorMessages := errorMessages st;
                     generalErrorMessage := generalErrorMessage st;
                     isFormValid := b |}) = b) by by intros [].
  cbv zeta. rewrite Hflag, valid_iff_empty, map_empty. split.
  - intros Hnone key value fieldRules Hkey Hrules.
    specialize (Hnone key). rewrite build_lookup_verdict, Hkey in Hnone.
    simpl in Hnone. rewrite Hrules in Hnone. by apply fieldVerdict_None in Hnone.
  - intros Hall key. rewrite build_lookup_verdict.
    destruct (default ∅ (form cfg) !! key) as [value|] eqn:Hkey; simpl; [|done].
    destruct (fieldRulesFor (rules cfg) key) as [fieldRules|] eqn:Hrules; simpl;
      [|done].
    apply fieldVerdict_None. by eapply Hall.
Qed.

Lemma build_None_withLabels labelsName cfg key :
  buildValidationMessages (withLabels labelsName cfg) !! key = None
  ↔ buildValidationMessages cfg !! key = None.
Proof.
  rewrite !build_lookup_verdict. simpl.
  destruct (default ∅ (form cfg) !! key) as [value|]; simpl; [|done].
  destruct (fieldRulesFor (rules cfg) key) as [fieldRules|]; simpl; [|done].
  by rewrite !fieldVerdict_None.
Qed.

(** X3: the labels change the text of the messages only: with any other
    labels table the pass reports the same fields and sets the same
    validity flag. *)
Theorem X3_labels_do_not_affect_validity labelsName cfg st :
  dom (buildValidationMessages (withLabels labelsName cfg))
  = dom (buildValidationMessages cfg)
  ∧ isFormValid (triggerFormValidationManual (withLabels labelsName cfg) st)
    = isFormValid (triggerFormValidationManual cfg st).
Proof.
  assert (Hdom : dom (buildValidationMessages (withLabels labelsName cfg))
                 = dom (buildValidationMessages cfg)).
  { apply set_eq. intros key. rewrite !elem_of_dom, <-!not_eq_None_Some.
    by rewrite build_None_withLabels. }
  split; [done|].
  destruct (decide (buildValidationMessages cfg = ∅)) as [He|Hne].
  - rewrite (trigger_valid cfg) by done.
    rewrite trigger_valid; [done|].
    apply dom_empty_iff_L. rewrite Hdom. by apply dom_empty_iff_L.
  - rewrite (trigger_invalid cfg) by done.
    rewrite trigger_invalid; [done|].
    intros He%dom_empty_iff_L. rewrite Hdom in He. by apply dom_empty_iff_L in He.
Qed.

(** X4: a key that the form does not hold is never reported, whatever rules
    the table has for it: the pass visits the fields of the form, not the
    entries of the rules table. *)
Theorem X4_field_missing_from_form cfg st key :
  default ∅ (form cfg) !! key = None →
  buildValidationMessages cfg !! key = None
  ∧ (errorMessages st !! key = None →
     errorMessages (triggerFormValidationManual cfg st) !! key = None).
Proof.
  intros Hkey.
  assert (Hbuild : buildValidationMessages cfg !! key = None)
    by by rewrite build_lookup_verdict, Hkey.
  split; [done|]. intros Hst.
  destruct (decide (buildValidationMessages cfg = ∅)) as [He|Hne].
  - by rewrite trigger_valid.
  - by rewrite trigger_invalid.
Qed.

(** The [phone] field of [countForm] is required by the rules table and is
    not in the form. *)
Lemma X4_field_missing_from_form_witness :
  isFieldRequired [("required", Flag true)] VUndefined = true
  ∧ buildValidationMessages countForm !! "phone" = None
  ∧ errorMessages (triggerFormValidationManual countForm useForm) !! "phone" = None.
Proof.
  split; [reflexivity|].
  destruct (X4_field_missing_from_form countForm useForm "phone") as [Hbuild Hst].
  - reflexivity.
  - split; [exact Hbuild | apply Hst; reflexivity].
Defined.

(** X5: a field whose value is truthy never gets a message text: whatever
    its rules are, the pass stores nothing for it or stores [undefined]. *)
Theorem X5_truthy_value_gets_no_message cfg st key value message :
  default ∅ (form cfg) !! key = Some value →
  ToBoolean value = true →
  buildValidationMessages cfg !! key ≠ Some (Some message)
  ∧ (errorMessages st !! key = None →
     errorMessages (triggerFormValidationManual cfg st) !! key
     ≠ Some (Some message)).
Proof.
  intros Hkey Hval.
  assert (Hbuild : buildValidationMessages cfg !! key ≠ Some (Some message)).
  { rewrite build_lookup_verdict, Hkey. simpl.
    destruct (fieldRulesFor (rules cfg) key) as [fieldRules|]; simpl; [|done].
    unfold fieldVerdict. rewrite Hval, andb_false_r.
    by destruct (existsb (failingRule value) fieldRules). }
  split; [done|]. intros Hst.
  destruct (decide (buildValidationMessages cfg = ∅)) as [He|Hne].
  - rewrite trigger_valid by done. simpl. by rewrite Hst.
  - by rewrite trigger_invalid.
Qed.

(** The [email] field of [contactForm] holds [abc], which the [email] rule
    rejects. *)
Lemma X5_truthy_value_gets_no_message_witness :
  buildValidationMessages contactForm !! "email"
  ≠ Some (Some "The field must a valid email address.")
  ∧ errorMessages (triggerFormValidationManual contactForm useForm) !! "email"
    ≠ Some (Some "The field must a valid email address.").
Proof.
  destruct (X5_truthy_value_gets_no_message contactForm useForm "email"
              (VString "abc") "The field must a valid email address.")
    as [Hbuild Hst]; [reflexivity|reflexivity|].
  split; [exact Hbuild | apply Hst; reflexivity].
Defined.

(** X6: rule values that are booleans are never checked: a field all of
    whose rules are booleans is reported only through the required branch,
    so not at all when its value is truthy or when it is not required. *)
Theorem X6_boolean_rules_do_nothing cfg key value fieldRules :
  default ∅ (form cfg) !! key = Some value →
  fieldRulesFor (rules cfg) key = Some fieldRules →
  forallb isFlag fieldRules = true →
  isFieldRequired fieldRules value && negb (ToBoolean value) = false →
  buildValidationMessages cfg !! key = None.
Proof.
  intros Hkey Hrules Hflags Hshort.
  rewrite build_lookup_verdict, Hkey. simpl. rewrite Hrules. simpl.
  apply fieldVerdict_None. unfold fieldInvalid. rewrite Hshort. simpl.
  apply not_true_is_false. intros Hfail.
  apply existsb_exists in Hfail as ([ruleKey ruleValue] & Hin & Hfail).
  rewrite forallb_forall in Hflags. specialize (Hflags _ Hin).
  unfold isFlag, failingRule in *. simpl in *.
  destruct ruleValue; [|done]. by rewrite andb_false_r in Hfail.
Qed.

(** The [name] field of [countForm] has [required: true] and
    [numeric: true], and holds [x]. *)
Lemma X6_boolean_rules_do_nothing_witness :
  buildValidationMessages countForm !! "name" = None.
Proof.
  apply (X6_boolean_rules_do_nothing countForm "name" (VString "x")
           [("required", Flag true); ("numeric", Flag true)]); reflexivity.
Defined.

(** X7: a field that is required and whose value is falsy makes the form
    invalid and is stored with the message of the rule that its rule set
    declares last, formatted without a parameter. *)
Theorem X7_required_field_reports_last_rule
    cfg st key value fieldRules ruleKey ruleValue :
  default ∅ (form cfg) !! key = Some value →
  fieldRulesFor (rules cfg) key = Some fieldRules →
  last fieldRules = Some (ruleKey, ruleValue) →
  isFieldRequired fieldRules value = true →
  ToBoolean value = false →
  let st' := triggerFormValidationManual cfg st in
  isFormValid st' = false
  ∧ errorMessages st' !! key
    = Some (Some (getFieldErrorMessage (labelFor (labels cfg) key) ruleKey None)).
Proof.
  intros Hkey Hrules Hlast Hreq Hval st'.
  assert (Hbuild : buildValidationMessages cfg !! key
                   = Some (Some (getFieldErrorMessage (labelFor (labels cfg) key)
                                   ruleKey None))).
  { rewrite build_lookup_verdict, Hkey. simpl. rewrite Hrules. simpl.
    unfold fieldVerdict. by rewrite Hreq, Hval, Hlast. }
  subst st'. rewrite trigger_invalid by eauto using lookup_nonempty.
  by split.
Qed.

(** The [count] field of [countForm] holds the number zero, which is falsy,
    under [required: true] followed by [maxLength]. *)
Lemma X7_required_field_reports_last_rule_witness :
  let st' := triggerFormValidationManual countForm useForm in
  isFormValid st' = false
  ∧ errorMessages st' !! "count"
    = Some (Some "The Count cannot have more than undefined characters.").
Proof.
  apply (X7_required_field_reports_last_rule countForm useForm "count"
           (VNumber (S754_zero false))
           [("required", Flag true); ("maxLength", Fn (λ _, true))]
           "maxLength" (Fn (λ _, true))); reflexivity.
Defined.

(** X8: a pass that follows [resetError] shows exactly the map it built:
    errors injected before the reset do not outlive it, and the form-level
    message is empty. *)
Theorem X8_pass_after_reset cfg st :
  let st' := triggerFormValidationManual cfg (resetError st) in
  errorMessages st' = buildValidationMessages cfg
  ∧ generalErrorMessage st' = EmptyString.
Proof.
  intros st'. subst st'.
  destruct (decide (buildValidationMessages cfg = ∅)) as [He|Hne].
  - rewrite trigger_valid by done. simpl. by rewrite He.
  - by rewrite trigger_invalid.
Qed.

Lemma rule_get_elem_of name (fieldRules : FieldRules) r :
  NoDup fieldRules.*1 →
  rule_get name fieldRules = Some r ↔ (name, r) ∈ fieldRules.
Proof.
  induction fieldRules as [|[k r'] rest IH]; intros Hnd; simpl.
  - split; [done|]. by intros ?%elem_of_nil.
  - rewrite fmap_cons in Hnd. apply NoDup_cons in Hnd as [Hk Hnd].
    rewrite elem_of_cons. destruct (String.eqb_spec k name) as [->|Hne].
    + split.
      * intros [= ->]. by left.
      * intros [[= ->]|Hin]; [done|].
        destruct Hk. by apply (list_elem_of_fmap_2 fst _ (name, r)).
    + rewrite IH by done. split; [by right|].
      intros [[= -> ->]|Hin]; done.
Qed.

Lemma rule_get_Permutation name (fieldRules fieldRules' : FieldRules) :
  NoDup fieldRules.*1 → fieldRules ≡ₚ fieldRules' →
  rule_get name fieldRules = rule_get name fieldRules'.
Proof.
  intros Hnd Hperm.
  assert (Hnd' : NoDup fieldRules'.*1) by by rewrite <-Hperm.
  apply option_eq. intros r.
  rewrite !rule_get_elem_of by done. by rewrite Hperm.
Qed.

Lemma existsb_Permutation {A} (f : A → bool) (l l' : list A) :
  l ≡ₚ l' → existsb f l = existsb f l'.
Proof.
  intros Hperm. apply eq_true_iff_eq.
  rewrite !existsb_exists. setoid_rewrite <-list_elem_of_In.
  by setoid_rewrite Hperm.
Qed.

(** X9: the order in which the rules of a field are declared decides the
    text of its message and nothing else: with the same rules in another
    order the pass reports the field in the same cases. *)
Theorem X9_rule_order_does_not_affect_validity cfg cfg' key fieldRules fieldRules' :
  form cfg' = form cfg →
  fieldRulesFor (rules cfg) key = Some fieldRules →
  fieldRulesFor (rules cfg') key = Some fieldRules' →
  NoDup fieldRules.*1 →
  fieldRules ≡ₚ fieldRules' →
  buildValidationMessages cfg' !! key = None
  ↔ buildValidationMessages cfg !! key = None.
Proof.
  intros Hform Hrules Hrules' Hnd Hperm.
  rewrite !build_lookup_verdict, Hform.
  destruct (default ∅ (form cfg) !! key) as [value|]; simpl; [|done].
  rewrite Hrules, Hrules'. simpl. rewrite !fieldVerdict_None.
  unfold fieldInvalid, isFieldRequired.
  rewrite (rule_get_Permutation "required" fieldRules fieldRules') by done.
  rewrite (rule_get_Permutation "requiredIf" fieldRules fieldRules') by done.
  by rewrite (existsb_Permutation _ fieldRules fieldRules').
Qed.

(** [signupForm] and [signupFormReordered] both report the [email] field. *)
Lemma X9_rule_order_does_not_affect_validity_witness :
  buildValidationMessages signupFormReordered !! "email" = None
  ↔ buildValidationMessages signupForm !! "email" = None.
Proof.
  apply (X9_rule_order_does_not_affect_validity signupForm signupFormReordered
           "email" [("required", Flag true); ("email", Fn email)]
           [("email", Fn email); ("required", Flag true)]).
  - reflexivity.
  - reflexivity.
  - reflexivity.
  - apply NoDup_cons. split.
    + intros [Heq|Hin]%elem_of_cons; [discriminate | by apply elem_of_nil in Hin].
    + apply NoDup_singleton.
  - apply perm_swap.
Defined.

(** * More properties of the predicates *)

Lemma code_inj c c' : code c = code c' → c = c'.
Proof.
  unfold code. intros Heq.
  by rewrite <-(ascii_N_embedding c), <-(ascii_N_embedding c'), Heq.
Qed.

Lemma email_true_string value :
  email value = true →
  ∃ s, value = VString s ∧ ToBoolean_string s = true
       ∧ InLang true (source emailRegex) s.
Proof.
  unfold email. intros Hemail.
  destruct value as [time|s|n|b|items| |]; simpl in Hemail;
    rewrite ?andb_false_r in Hemail; try done.
  apply andb_true_iff in Hemail as [Hs%andb_true_iff Htest].
  exists s. split; [done|]. split; [apply Hs|]. by apply matches_spec.
Qed.

(** X10: a value that [email] accepts is one that [required] accepts: it is
    a string that is not empty. *)
Theorem X10_email_implies_required
    (isEmpty : FormValue → Completion bool) (Number_toString : spec_float → string)
    (Date_toString : option Z → string) value :
  email value = true →
  required isEmpty Number_toString Date_toString value = Normal true
  ∧ ToBoolean value = true.
Proof.
  intros (s & -> & Hs & _)%email_true_string.
  split; [|exact Hs]. unfold required. simpl. f_equal. exact Hs.
Qed.

Lemma X10_email_implies_required_witness :
  required (λ _, Throw "ReferenceError") sampleNumberToString (λ _, "Invalid Date")
    (VString "john.doe@example.com") = Normal true
  ∧ ToBoolean (VString "john.doe@example.com") = true.
Proof.
  apply (X10_email_implies_required (λ _, Throw "ReferenceError")
           sampleNumberToString (λ _, "Invalid Date")
           (VString "john.doe@example.com")).
  vm_compute. reflexivity.
Defined.

(** A class of one code unit that is not a letter matches that code unit
    only. *)
Lemma class_test_single c ch :
  (c < 65 ∨ 90 < c < 97 ∨ 122 < c)%N →
  class_test true [(c, c)] ch = true → ch = c.
Proof.
  unfold class_test, in_ranges. simpl. rewrite !orb_false_r, orb_true_iff.
  rewrite !andb_true_iff, !N.leb_le. intros Hc Hin.
  destruct (Canonicalize_cases ch) as [[? Hcanon]|[? Hcanon]];
    destruct (lower_case_cases (Canonicalize ch)) as [[? Hlow]|[? Hlow]];
    rewrite ?Hlow, ?Hcanon in *; lia.
Qed.

(** X11: a string that [email] accepts has an at sign with something before
    it and something after it. *)
Theorem X11_email_has_at_sign value :
  email value = true →
  ∃ s before after,
    value = VString s
    ∧ s = before ++ String "@" after
    ∧ before ≠ EmptyString ∧ after ≠ EmptyString.
Proof.
  intros (s & -> & _ & Hlang)%email_true_string.
  simpl in Hlang.
  inversion Hlang as [| |a b before rest Hbefore Hrest| | | |]; subst.
  inversion Hrest as [| |a b at_sign after Hat Hafter| | | |]; subst.
  inversion Hat as [|ranges c Hc| | | | |]; subst.
  apply class_test_single in Hc; [|by left].
  apply (code_inj c "@") in Hc as ->.
  exists (before ++ String "@" after), before, after.
  split; [reflexivity|]. split; [reflexivity|]. split.
  - intros ->. by apply (nullable_spec true) in Hbefore.
  - intros ->. by apply (nullable_spec true) in Hafter.
Qed.

Lemma X11_email_has_at_sign_witness :
  ∃ s before after,
    VString "a@b.co" = VString s
    ∧ s = before ++ String "@" after
    ∧ before ≠ EmptyString ∧ after ≠ EmptyString.
Proof.
  apply (X11_email_has_at_sign (VString "a@b.co")). vm_compute. reflexivity.
Defined.

Lemma class_test_canonical ranges ch ch' :
  Canonicalize ch = Canonicalize ch' →
  class_test true ranges ch = class_test true ranges ch'.
Proof. unfold class_test. by intros ->. Qed.

Lemma derive_canonical ch ch' r :
  Canonicalize ch = Canonicalize ch' → derive true ch r = derive true ch' r.
Proof.
  intros Hcanon.
  induction r as [| |ranges|a IHa b IHb|a IHa b IHb|a IHa]; cbn [derive];
    try done.
  - by rewrite (class_test_canonical ranges ch ch').
  - by rewrite IHa, IHb.
  - by rewrite IHa, IHb.
  - by rewrite IHa.
Qed.

Lemma matches_canonical r s t :
  canonical_codes s = canonical_codes t → matches true r s = matches true r t.
Proof.
  revert r t. induction s as [|c s IH]; intros r [|c' t] Hcodes; try done.
  injection Hcodes as Hc Hrest. simpl.
  rewrite (derive_canonical (code c) (code c')) by done. by apply IH.
Qed.

(** X12: [email] does not tell upper case from lower case: two strings
    whose code units have the same canonical forms, one by one, get the
    same answer. *)
Theorem X12_email_ignores_case s t :
  canonical_codes s = canonical_codes t →
  email (VString s) = email (VString t).
Proof.
  intros Hcodes. unfold email, RegExp_test. simpl.
  rewrite (matches_canonical _ s t) by done.
  assert (Hlen : ToBoolean_string s = ToBoolean_string t).
  { destruct s, t; try done. }
  by rewrite Hlen.
Qed.

Lemma X12_email_ignores_case_witness :
  email (VString "John.Doe@Example.COM") = email (VString "john.doe@example.com").
Proof.
  apply (X12_email_ignores_case "John.Doe@Example.COM" "john.doe@example.com").
  vm_compute. reflexivity.
Defined.

Lemma string_codes_app s t : string_codes (s ++ t) = (string_codes s ++ string_codes t)%list.
Proof.
  unfold string_codes. induction s as [|c s IH]; [done|].
  change (String c s ++ t) with (String c (s ++ t)). simpl. by rewrite IH.
Qed.

Lemma class_test_below bound ranges ch :
  (122 ≤ bound)%N →
  forallb (λ range : N * N, N.leb range.2 bound) ranges = true →
  class_test true ranges ch = true → (ch ≤ bound)%N.
Proof.
  intros Hbound Hall. rewrite forallb_forall in Hall.
  unfold class_test, in_ranges. rewrite orb_true_iff, !existsb_exists.
  intros [([lo hi] & Hin & Hr)|([lo hi] & Hin & Hr)];
    apply Hall in Hin; simpl in *;
    apply andb_true_iff in Hr as [Hlo%N.leb_le Hhi%N.leb_le];
    apply N.leb_le in Hin;
    destruct (Canonicalize_cases ch) as [[? Hcanon]|[? Hcanon]];
    destruct (lower_case_cases (Canonicalize ch)) as [[? Hlow]|[? Hlow]];
    rewrite ?Hlow, ?Hcanon in *; lia.
Qed.

Lemma InLang_below bound r s :
  (122 ≤ bound)%N →
  classes_below bound r = true →
  InLang true r s → Forall (λ ch, (ch ≤ bound)%N) (string_codes s).
Proof.
  intros Hbound Hr Hlang.
  induction Hlang as [|ranges c Hc|a b s t Ha IHa Hb IHb|a b s Ha IHa|a b s Hb IHb
                     |a|a s t Ha IHa Ht IHt]; simpl in Hr.
  - constructor.
  - repeat constructor. by eapply class_test_below.
  - apply andb_true_iff in Hr as [Hra Hrb].
    rewrite string_codes_app. apply Forall_app. auto.
  - apply andb_true_iff in Hr as [Hra Hrb]. auto.
  - apply andb_true_iff in Hr as [Hra Hrb]. auto.
  - constructor.
  - rewrite string_codes_app. apply Forall_app. auto.
Qed.

Lemma InLang_codes r s :
  InLang true r s → InLangCodes Canonicalize r (string_codes s).
Proof.
  induction 1 as [|ranges c Hc|a b s t Ha IHa Hb IHb|a b s Ha IHa|a b s Hb IHb
                 |a|a s t Ha IHa Ht IHt].
  - constructor.
  - apply class_test_ignoreCase in Hc as (member & Hin & Hcanon).
    by apply (CodesClass Canonicalize ranges member).
  - rewrite string_codes_app. by constructor.
  - by apply CodesAltL.
  - by apply CodesAltR.
  - constructor.
  - rewrite string_codes_app. by constructor.
Qed.

Lemma in_ranges_below bound ranges a :
  forallb (λ range : N * N, N.leb range.2 bound) ranges = true →
  in_ranges ranges a = true → (a ≤ bound)%N.
Proof.
  intros Hall. rewrite forallb_forall in Hall.
  unfold in_ranges. rewrite existsb_exists.
  intros ([lo hi] & Hin & Hr). apply Hall in Hin. simpl in *.
  apply andb_true_iff in Hr as [_ Hhi%N.leb_le]. apply N.leb_le in Hin. lia.
Qed.

Lemma InLangCodes_below canon bound r units :
  (∀ a, (a ≤ bound)%N → (canon a ≤ bound)%N) →
  (∀ ch, (bound < ch)%N → (bound < canon ch)%N) →
  classes_below bound r = true →
  InLangCodes canon r units → Forall (λ ch, (ch ≤ bound)%N) units.
Proof.
  intros Hlow Hhigh Hr Hlang.
  induction Hlang as [|ranges member ch Hin Hcanon|a b s t Ha IHa Hb IHb
                     |a b s Ha IHa|a b s Hb IHb|a|a s t Ha IHa Ht IHt];
    simpl in Hr.
  - constructor.
  - repeat constructor.
    apply (in_ranges_below bound) in Hin; [|done]. apply Hlow in Hin.
    destruct (N.le_gt_cases ch bound) as [Hle|Hgt]; [done|].
    apply Hhigh in Hgt. lia.
  - apply andb_true_iff in Hr as [Hra Hrb]. apply Forall_app. auto.
  - apply andb_true_iff in Hr as [Hra Hrb]. auto.
  - apply andb_true_iff in Hr as [Hra Hrb]. auto.
  - constructor.
  - apply Forall_app. auto.
Qed.

Lemma Canonicalize_keeps_ascii a : (a ≤ 127)%N → (Canonicalize a ≤ 127)%N.
Proof. destruct (Canonicalize_cases a) as [[? ->]|[? ->]]; lia. Qed.

Lemma Canonicalize_keeps_non_ascii ch : (127 < ch)%N → (127 < Canonicalize ch)%N.
Proof. destruct (Canonicalize_cases ch) as [[? ->]|[? ->]]; lia. Qed.

(** X13: the strings of the pattern of [emailRegex] under the [i] flag hold
    code units up to [0x7f] only, over code units of any size and for every
    canonical form that keeps an ASCII code unit ASCII and any other code
    unit outside ASCII, as the one of the language does; and a value that
    [email] accepts is such a string. *)
Theorem X13_email_is_ascii :
  (∀ canon units,
     (∀ a, (a ≤ 127)%N → (canon a ≤ 127)%N) →
     (∀ ch, (127 < ch)%N → (127 < canon ch)%N) →
     InLangCodes canon (source emailRegex) units →
     Forall (λ ch, (ch ≤ 127)%N) units)
  ∧ (∀ value,
       email value = true →
       ∃ s, value = VString s
            ∧ InLangCodes Canonicalize (source emailRegex) (string_codes s)
            ∧ Forall (λ ch, (ch ≤ 127)%N) (string_codes s)).
Proof.
  assert (Hall : ∀ canon units,
            (∀ a, (a ≤ 127)%N → (canon a ≤ 127)%N) →
            (∀ ch, (127 < ch)%N → (127 < canon ch)%N) →
            InLangCodes canon (source emailRegex) units →
            Forall (λ ch, (ch ≤ 127)%N) units).
  { intros canon units Hlow Hhigh Hlang.
    apply (InLangCodes_below canon 127 (source emailRegex)); [done|done| |done].
    vm_compute. reflexivity. }
  split; [exact Hall|].
  intros value (s & -> & _ & Hlang%InLang_codes)%email_true_string.
  exists s. split; [done|]. split; [done|].
  apply (Hall Canonicalize); [|apply Canonicalize_keeps_non_ascii|done].
  apply Canonicalize_keeps_ascii.
Qed.

Lemma X13_email_is_ascii_witness :
  ∃ s, VString "a@b.co" = VString s
       ∧ InLangCodes Canonicalize (source emailRegex) (string_codes s)
       ∧ Forall (λ ch, (ch ≤ 127)%N) (string_codes s).
Proof.
  destruct X13_email_is_ascii as [_ Hemail].
  apply (Hemail (VString "a@b.co")). vm_compute. reflexivity.
Defined.

(** X14: when no number has an empty string form, [required] and the
    truthiness that the pass tests for a required field agree on every
    value except the numbers zero and [NaN] and the boolean [false], which
    [required] accepts though they are falsy, and the empty array and the
    invalid date, which [required] rejects though they are truthy. *)
Theorem X14_required_against_truthiness
    (isEmpty : FormValue → Completion bool) (Number_toString : spec_float → string)
    (Date_toString : option Z → string) value :
  (∀ n, Number_toString n ≠ EmptyString) →
  required isEmpty Number_toString Date_toString value
  = Normal (if requiredDiffersFromTruthiness value
            then negb (ToBoolean value) else ToBoolean value).
Proof.
  intros Hnumber.
  destruct value as [[time|]|s|n|b|[|item items]| |]; try done.
  - unfold required. simpl. f_equal.
    rewrite ToBoolean_nat_string_length.
    rewrite bool_decide_eq_false_2 by apply Hnumber.
    by destruct (ToBoolean_number n).
  - by destruct b.
Qed.

Lemma X14_required_against_truthiness_witness :
  required (λ _, Throw "ReferenceError") sampleNumberToString (λ _, "Invalid Date")
    (VNumber (S754_zero false)) = Normal true
  ∧ ToBoolean (VNumber (S754_zero false)) = false.
Proof.
  split; [|reflexivity].
  rewrite (X14_required_against_truthiness (λ _, Throw "ReferenceError")
             sampleNumberToString (λ _, "Invalid Date") (VNumber (S754_zero false))).
  - reflexivity.
  - intros [s| [|] | |s m e]; discriminate.
Defined.

(** X15: [phone] answers [false] on [null], [undefined] and the empty
    string without calling [isValidPhoneNumber], and on any other string it
    is the outcome of that call: it throws exactly when the value is a
    nonempty string on which [isValidPhoneNumber] throws. *)
Theorem X15_phone_outcomes
    (CountryCode : Type) (isValidPhoneNumber : string → CountryCode → Completion bool)
    (value : option string) (defaultCountry : CountryCode) :
  (ToBoolean_opt value = false →
   ∀ isValidPhoneNumber',
     phone CountryCode isValidPhoneNumber' value defaultCountry = Normal false)
  ∧ (∀ error,
       phone CountryCode isValidPhoneNumber value defaultCountry = Throw error
       ↔ ∃ s, value = Some s ∧ s ≠ EmptyString
              ∧ isValidPhoneNumber s defaultCountry = Throw error).
Proof.
  split.
  - intros Hfalsy isValidPhoneNumber'. unfold phone. by rewrite Hfalsy.
  - intros error. unfold phone. destruct value as [[|c s]|]; simpl.
    + split; [done|]. by intros (s & [= <-] & Hs & _).
    + split.
      * intros Hthrow. by exists (String c s).
      * by intros (s' & [= <-] & _ & Hthrow).
    + split; [done|]. by intros (s & ? & _).
Qed.

(** With the import commented out every call of [isValidPhoneNumber]
    throws: [phone] answers on the empty string and throws on a number. *)
Lemma X15_phone_outcomes_witness :
  let unbound := λ (_ : string) (_ : string), @Throw bool "ReferenceError" in
  phone string unbound (Some EmptyString) "US" = Normal false
  ∧ phone string unbound (Some "555 0100") "US" = Throw "ReferenceError".
Proof.
  intros unbound. split.
  - destruct (X15_phone_outcomes string unbound (Some EmptyString) "US")
      as [Hfalsy _].
    apply Hfalsy. reflexivity.
  - destruct (X15_phone_outcomes string unbound (Some "555 0100") "US")
      as [_ Hthrow].
    apply Hthrow. exists "555 0100". repeat split. discriminate.
Defined.

(** X16: every message of the formatter is a nonempty string, so that a
    message, once pending in the pass, is truthy; and a label that is the
    empty string gives the text of a missing label. *)
Theorem X16_message_is_truthy label errorType param :
  ToBoolean_string (getFieldErrorMessage label errorType param) = true
  ∧ (ToBoolean_opt label = false →
     getFieldErrorMessage label errorType param
     = getFieldErrorMessage None errorType param).
Proof.
  split.
  - unfold getFieldErrorMessage. by repeat case_match.
  - intros Hlabel. destruct label as [l|]; [|done].
    unfold getFieldErrorMessage, label_or_field. simpl in Hlabel. by rewrite Hlabel.
Qed.

Lemma append_assoc (s t u : string) : (s ++ t) ++ u = s ++ (t ++ u).
Proof.
  induction s as [|c s IH]; [done|].
  change (String c ((s ++ t) ++ u) = String c (s ++ (t ++ u))). by rewrite IH.
Qed.

Lemma Array_join_app sep (items items' : list string) :
  items ≠ [] → items' ≠ [] →
  Array_join sep (items ++ items')
  = Array_join sep items ++ sep ++ Array_join sep items'.
Proof.
  intros Hitems Hitems'.
  induction items as [|x [|y items] IH]; [done| |].
  - destruct items' as [|x' items']; done.
  - change (x ++ sep ++ Array_join sep ((y :: items) ++ items')
            = (x ++ sep ++ Array_join sep (y :: items)) ++ sep ++ Array_join sep items').
    rewrite IH by done. by rewrite !append_assoc.
Qed.

Lemma setErrorMessage_lookup errors st key :
  errorMessages (setErrorMessage errors st) !! key
  = (λ messages, Some (Array_join ", " messages)) <$> errors !! key.
Proof.
  unfold setErrorMessage. simpl.
  rewrite (foldl_insert_lookup
             (λ error, Some (Array_join ", " (default [] (errors !! error))))).
  case_bool_decide as Hin.
  - apply elem_of_Object_keys in Hin as [messages Hm]. by rewrite Hm.
  - rewrite lookup_empty. destruct (errors !! key) as [messages|] eqn:Hm; [|done].
    destruct Hin. apply elem_of_Object_keys. by exists messages.
Qed.

(** X17: injecting for a field the messages of one list followed by those
    of another, neither empty, shows the joined messages of the first, a
    comma and a space, and the joined messages of the second. *)
Theorem X17_setErrorMessage_appended errors st key (items items' : list string) :
  errors !! key = Some (items ++ items')%list →
  items ≠ [] → items' ≠ [] →
  errorMessages (setErrorMessage errors st) !! key
  = Some (Some (Array_join ", " items ++ ", " ++ Array_join ", " items')).
Proof.
  intros Hkey Hitems Hitems'.
  rewrite setErrorMessage_lookup, Hkey. simpl.
  by rewrite Array_join_app.
Qed.

Lemma X17_setErrorMessage_appended_witness :
  errorMessages (setErrorMessage {[ "email" := ["bad"; "taken"; "short"] ]} useForm)
    !! "email"
  = Some (Some (Array_join ", " ["bad"; "taken"] ++ ", " ++ Array_join ", " ["short"])).
Proof.
  apply (X17_setErrorMessage_appended {[ "email" := ["bad"; "taken"; "short"] ]}
           useForm "email" ["bad"; "taken"] ["short"]).
  - reflexivity.
  - discriminate.
  - discriminate.
Defined.

(** X18: [setErrorMessage] replaces the error map as a whole: its fields
    are those of the injected map, whatever was shown before; each holds a
    string, never [undefined]; a field injected with an empty list holds the
    empty string; and the validity flag keeps its value. *)
Theorem X18_setErrorMessage_replaces errors st :
  dom (errorMessages (setErrorMessage errors st)) = dom errors
  ∧ (∀ key, errorMessages (setErrorMessage errors st) !! key ≠ Some None)
  ∧ (∀ key, errors !! key = Some [] →
            errorMessages (setErrorMessage errors st) !! key = Some (Some EmptyString))
  ∧ (∀ st', errorMessages (setErrorMessage errors st')
            = errorMessages (setErrorMessage errors st))
  ∧ isFormValid (setErrorMessage errors st) = isFormValid st.
Proof.
  split; [|split; [|split; [|split]]].
  - apply set_eq. intros key.
    rewrite !elem_of_dom, setErrorMessage_lookup. by rewrite fmap_is_Some.
  - intros key. rewrite setErrorMessage_lookup. by destruct (errors !! key).
  - intros key Hkey. by rewrite setErrorMessage_lookup, Hkey.
  - intros st'. apply map_eq. intros key. by rewrite !setErrorMessage_lookup.
  - reflexivity.
Qed.

(** X19: a valid pass does not clear what an invalid pass showed: after an
    invalid pass over one snapshot and a valid pass over another, the
    validity flag is [true] and the error map is still the one of the
    invalid pass. *)
Theorem X19_valid_pass_keeps_old_errors cfg cfg' st :
  buildValidationMessages cfg ≠ ∅ →
  buildValidationMessages cfg' = ∅ →
  let st' := triggerFormValidationManual cfg' (triggerFormValidationManual cfg st) in
  isFormValid st' = true
  ∧ errorMessages st' = buildValidationMessages cfg
  ∧ errorMessages st' ≠ ∅.
Proof.
  intros Hinvalid Hvalid st'. subst st'.
  rewrite (trigger_valid cfg') by done.
  rewrite (trigger_invalid cfg) by done. simpl. by repeat split.
Qed.

(** A pass over [contactForm], whose [email] field fails, then a pass over
    [plainForm], which has no rules. *)
Lemma X19_valid_pass_keeps_old_errors_witness :
  let st' := triggerFormValidationManual plainForm
               (triggerFormValidationManual contactForm useForm) in
  isFormValid st' = true
  ∧ errorMessages st' = buildValidationMessages contactForm
  ∧ errorMessages st' ≠ ∅.
Proof.
  apply (X19_valid_pass_keeps_old_errors contactForm plainForm useForm).
  - apply (lookup_nonempty _ "email" None). vm_compute. reflexivity.
  - apply build_without_rules. reflexivity.
Defined.

Lemma InLang_always_has ch r s :
  (ch < 65 ∨ 90 < ch < 97 ∨ 122 < ch)%N →
  always_has ch r = true → InLang true r s → ch ∈ string_codes s.
Proof.
  intros Hch Hr Hlang.
  induction Hlang as [|ranges c Hc|a b s t Ha IHa Hb IHb|a b s Ha IHa|a b s Hb IHb
                     |a|a s t Ha IHa Ht IHt]; simpl in Hr; try done.
  - destruct ranges as [|[lo hi] [|range ranges]]; try done.
    apply andb_true_iff in Hr as [->%N.eqb_eq ->%N.eqb_eq].
    apply class_test_single in Hc; [|done].
    unfold string_codes. simpl. rewrite Hc. by left.
  - rewrite string_codes_app, elem_of_app.
    apply orb_true_iff in Hr as [Hr|Hr]; [left|right]; auto.
  - apply andb_true_iff in Hr as [Hra Hrb]. auto.
  - apply andb_true_iff in Hr as [Hra Hrb]. auto.
Qed.

(** The first occurrence of a code unit comes no later than any other. *)
Lemma first_occurrence (x : N) (l h before after : list N) :
  x ∉ l → (l ++ x :: h = before ++ x :: after)%list →
  ∃ between, h = (between ++ after)%list.
Proof.
  revert before. induction l as [|y l IH]; intros before Hl Heq.
  - destruct before as [|z before]; simpl in Heq.
    + injection Heq as ->. by exists [].
    + injection Heq as _ ->. by exists (before ++ [x])%list; rewrite <-app_assoc.
  - apply not_elem_of_cons in Hl as [Hne Hl].
    destruct before as [|z before]; simpl in Heq.
    + injection Heq as Hy _. congruence.
    + injection Heq as _ Heq. by apply (IH before).
Qed.

Lemma string_codes_at_sign (l h : string) :
  string_codes (l ++ String "@" h)
  = (string_codes l ++ code "@" :: string_codes h)%list.
Proof. by rewrite string_codes_app. Qed.

(** X20: a string that [email] accepts splits at an at sign into a part
    that the pattern of the local part accepts and a part that the pattern
    of the domain accepts and that holds a dot; so a dot follows the first
    at sign of the string: a string without a dot after its first at sign,
    as an address with a bare host name is, is rejected. *)
Theorem X20_email_domain_has_dot value :
  email value = true →
  (∃ before after,
     value = VString (before ++ String "@" after)
     ∧ InLang true local_part before
     ∧ InLang true domain_part after
     ∧ code "." ∈ string_codes after)
  ∧ (∀ l h,
       value = VString (l ++ String "@" h) →
       code "@" ∉ string_codes l →
       code "." ∈ string_codes h).
Proof.
  intros (s & -> & _ & Hlang)%email_true_string.
  simpl in Hlang.
  inversion Hlang as [| |a b before rest Hbefore Hrest| | | |]; subst.
  inversion Hrest as [| |a b at_sign after Hat Hafter| | | |]; subst.
  inversion Hat as [|ranges c Hc| | | | |]; subst.
  apply class_test_single in Hc; [|by left].
  apply (code_inj c "@") in Hc as ->.
  assert (Hdot : code "." ∈ string_codes after).
  { apply (InLang_always_has (code ".") domain_part); [by left| |done].
    vm_compute. reflexivity. }
  split.
  - by exists before, after.
  - intros l h [= Heq] Hl.
    apply (f_equal string_codes) in Heq.
    change (String "@" EmptyString ++ after) with (String "@" after) in Heq.
    rewrite !string_codes_at_sign in Heq.
    symmetry in Heq.
    destruct (first_occurrence _ _ _ _ _ Hl Heq) as [between ->].
    apply elem_of_app. by right.
Qed.

Lemma X20_email_domain_has_dot_witness :
  (∃ before after,
     VString "a@b.co" = VString (before ++ String "@" after)
     ∧ InLang true local_part before
     ∧ InLang true domain_part after
     ∧ code "." ∈ string_codes after)
  ∧ (∀ l h,
       VString "a@b.co" = VString (l ++ String "@" h) →
       code "@" ∉ string_codes l →
       code "." ∈ string_codes h).
Proof.
  apply (X20_email_domain_has_dot (VString "a@b.co")). vm_compute. reflexivity.
Defined.
